(** * go-multi-miner: registry, device manager and connection pool

    A shallow embedding of the core of the [multiminer] package (the
    driver registry, the device manager and the connection pool) together
    with the properties its specification states about them.

    Conventions of the embedding:
    - Go [int], [time.Time] and [time.Duration] are integers ([Z]); clock
      readings and durations are counted in nanoseconds.  [Time.Sub]
      saturates at the least and greatest [Duration], as in Go.
    - [Driver] and [Session] are Go interface values.  The code only ever
      calls their methods and compares sessions by identity (they are map
      keys), so both are modelled as handles; what the methods do is given
      by the environment [Env], which owns the outside world (network,
      devices, wall clock).
    - Code with effects is written in state-passing style in the monad
      [Eff]: the state is the outside world plus a log of the calls made.
    - A method with a pointer receiver takes the receiver's value and
      returns the updated value; the caller stores it back where the Go
      pointer lives.
    - Mutexes are not modelled: every method body runs under its lock, so a
      method is one atomic step. *)

From Stdlib Require Import ZArith String Lia.
From stdpp Require Import base list relations gmap strings.

Local Open Scope string_scope.
Local Open Scope list_scope.
Local Open Scope Z_scope.

(** ** Errors ([MultiMinerError] and its constructors) *)

Definition ErrCodeNotFound : string := "NOT_FOUND".
Definition ErrCodeDriverNotFound : string := "DRIVER_NOT_FOUND".
Definition ErrCodeDeviceError : string := "DEVICE_ERROR".

(** [error] is the Go interface: either the package's structured
    [MultiMinerError] or an error value of some other type. *)
#[local] Set Warnings "-register-all,-clear-no-such-hyp".
Inductive error : Type :=
| MultiMinerError (Code Message Details : string) (Cause : option error)
| OtherError (text : string).

Definition ErrNotFound : error :=
  MultiMinerError ErrCodeNotFound "device not found" "" None.

Definition NewDriverNotFoundError : error :=
  MultiMinerError ErrCodeDriverNotFound "no suitable driver found" "" None.

Definition NewDeviceError (message details : string) (cause : option error) : error :=
  MultiMinerError ErrCodeDeviceError message details cause.

Definition error_code (e : error) : option string :=
  match e with
  | MultiMinerError c _ _ _ => Some c
  | OtherError _ => None
  end.

Definition is_DeviceError (e : error) : Prop :=
  error_code e = Some ErrCodeDeviceError.

(** A Go result pair [(T, error)] of a function that returns exactly one
    of the two. *)
Inductive result (A : Type) : Type :=
| Ok (a : A)
| Fail (e : error).
Arguments Ok {A} a.
Arguments Fail {A} e.

(** ** Shared types ([MinerID], [Endpoint], [Device], handles) *)

Definition MinerID : Type := string.
Definition Session : Type := nat.
Definition Driver : Type := nat.
Definition Time : Type := Z.
Definition Duration : Type := Z.

Record Endpoint : Type := { Address : string }.

Record Device : Type := {
  dev_ID : MinerID;
  dev_Endpoint : Endpoint;
  dev_Driver : Driver;
  dev_DriverName : string
}.

Definition Minute : Duration := 60 * 1000000000.

(** The least and greatest [time.Duration] (an [int64] of nanoseconds),
    and [t.Sub(u)]: the difference of two instants, or the least or
    greatest duration when the difference does not fit. *)
Definition MinDuration : Duration := - 2 ^ 63.
Definition MaxDuration : Duration := 2 ^ 63 - 1.

Definition time_Sub (t u : Time) : Duration :=
  Z.max MinDuration (Z.min MaxDuration (t - u)).

(** ** Calls the core makes, in the order it makes them *)

Inductive Event : Type :=
| EvDetect (d : Driver) (ep : Endpoint)
| EvOpen (d : Driver) (ep : Endpoint)
| EvClose (s : Session)
| EvCallback (s : Session)
| EvGetSession (id : MinerID)
| EvReturnSession (id : MinerID) (s : Session).

(** ** The environment: drivers, sessions, clock, map iteration order *)

Class Env : Type := {
  World : Type;
  (** [Driver.Name()] *)
  driver_name : Driver → string;
  (** [Driver.Detect(ctx, ep)], a Go pair [(bool, error)] *)
  driver_detect : Driver → Endpoint → World → (bool * option error) * World;
  (** [Driver.Open(ctx, ep)], a Go pair [(Session, error)] *)
  driver_open : Driver → Endpoint → World → (Session * option error) * World;
  (** [Session.Close()] *)
  session_close : Session → World → option error * World;
  (** [time.Now()] *)
  time_now : World → Time;
  (** The order in which [range] walks a Go map is unspecified:
      some rearrangement of its entries.  Go chooses it anew for every
      loop; what is stated about two loops is stated up to order. *)
  range_order : ∀ A : Type, list A → list A;
  range_order_perm : ∀ (A : Type) (l : list A), range_order A l ≡ₚ l
}.

Record Sys `{Env} : Type := {
  world : World;
  log : list Event
}.

Definition Eff `{Env} (A : Type) : Type := Sys → A * Sys.

Definition ret `{Env} {A : Type} (a : A) : Eff A := λ σ, (a, σ).

Definition bind `{Env} {A B : Type} (m : Eff A) (k : A → Eff B) : Eff B :=
  λ σ, let '(a, σ') := m σ in k a σ'.

Notation "'let!' x ':=' m 'in' k" := (bind m (λ x, k))
  (at level 10, x pattern, m at level 100, k at level 200, only parsing).

Definition emit `{Env} (e : Event) : Eff unit :=
  λ σ, (tt, {| world := world σ; log := log σ ++ [e] |}).

Definition call_detect `{Env} (d : Driver) (ep : Endpoint) : Eff (bool * option error) :=
  λ σ, let '(r, w) := driver_detect d ep (world σ) in
       (r, {| world := w; log := log σ ++ [EvDetect d ep] |}).

Definition call_open `{Env} (d : Driver) (ep : Endpoint) : Eff (Session * option error) :=
  λ σ, let '(r, w) := driver_open d ep (world σ) in
       (r, {| world := w; log := log σ ++ [EvOpen d ep] |}).

Definition call_close `{Env} (s : Session) : Eff (option error) :=
  λ σ, let '(r, w) := session_close s (world σ) in
       (r, {| world := w; log := log σ ++ [EvClose s] |}).

Definition now `{Env} : Eff Time := λ σ, (time_now (world σ), σ).

(** ** Registry (multiminer/registry.go) *)

Record Registry : Type := { drivers : list Driver }.

Definition NewRegistry : Registry := {| drivers := [] |}.

Definition Register (r : Registry) (d : Driver) : Registry :=
  {| drivers := drivers r ++ [d] |}.

(** The [for _, d := range r.drivers] loop of [Registry.Detect]. *)
Fixpoint detect_loop `{Env} (ds : list Driver) (ep : Endpoint) : Eff (result Driver) :=
  match ds with
  | [] => ret (Fail NewDriverNotFoundError)
  | d :: rest =>
      let! (ok, err) := call_detect d ep in
      match err with
      | Some e => ret (Fail e)
      | None => if ok : bool then ret (Ok d) else detect_loop rest ep
      end
  end.

Definition Registry_Detect `{Env} (r : Registry) (ep : Endpoint) : Eff (result Driver) :=
  detect_loop (drivers r) ep.

(** Probing the drivers [ds] one after the other from state [σ], each
    call of [Detect] comes back [(false, nil)]; [σ'] is the state after
    the last of them. *)
Inductive all_decline `{Env} (ep : Endpoint) : list Driver → Sys → Sys → Prop :=
| all_decline_nil σ : all_decline ep [] σ σ
| all_decline_cons d ds σ σ1 σ' :
    call_detect d ep σ = ((false, None), σ1) →
    all_decline ep ds σ1 σ' →
    all_decline ep (d :: ds) σ σ'.

(** ** Connection pool ([ConnectionPool], [DevicePool]) *)

(** [DevicePool]: connections of a single device.  [active] is a Go
    [map[Session]bool] whose values are always [true], that is a set;
    [len(dp.active)] is its number of keys. *)
Record DevicePool : Type := {
  dp_device : Device;
  dp_idle : list Session;
  dp_active : gset Session;
  dp_createdAt : gmap Session Time;
  dp_maxIdle : Z;
  dp_maxOpen : Z;
  dp_idleTime : Duration
}.

Record ConnectionPool : Type := {
  cp_pools : gmap MinerID DevicePool;
  cp_maxIdle : Z;
  cp_maxOpen : Z;
  cp_idleTime : Duration
}.

Record PoolStats : Type := {
  ActiveConnections : Z;
  IdleConnections : Z;
  MaxOpen : Z;
  MaxIdle : Z
}.

(** The three containers of a sub-pool change; its device and limits never do. *)
Definition with_sessions (dp : DevicePool) (idle : list Session)
    (active : gset Session) (createdAt : gmap Session Time) : DevicePool :=
  {| dp_device := dp_device dp;
     dp_idle := idle;
     dp_active := active;
     dp_createdAt := createdAt;
     dp_maxIdle := dp_maxIdle dp;
     dp_maxOpen := dp_maxOpen dp;
     dp_idleTime := dp_idleTime dp |}.

Definition with_pools (p : ConnectionPool) (pools : gmap MinerID DevicePool) : ConnectionPool :=
  {| cp_pools := pools;
     cp_maxIdle := cp_maxIdle p;
     cp_maxOpen := cp_maxOpen p;
     cp_idleTime := cp_idleTime p |}.

Definition NewConnectionPool : ConnectionPool :=
  {| cp_pools := ∅; cp_maxIdle := 5; cp_maxOpen := 10; cp_idleTime := 5 * Minute |}.

Definition SetLimits (p : ConnectionPool) (maxIdle maxOpen : Z) (idleTime : Duration)
    : ConnectionPool :=
  {| cp_pools := cp_pools p;
     cp_maxIdle := maxIdle;
     cp_maxOpen := maxOpen;
     cp_idleTime := idleTime |}.

(** The sub-pool [GetSession] creates when the device has none. *)
Definition new_DevicePool (p : ConnectionPool) (device : Device) : DevicePool :=
  {| dp_device := device;
     dp_idle := [];
     dp_active := ∅;
     dp_createdAt := ∅;
     dp_maxIdle := cp_maxIdle p;
     dp_maxOpen := cp_maxOpen p;
     dp_idleTime := cp_idleTime p |}.

Definition pool_exhausted : error :=
  NewDeviceError "connection pool exhausted" "too many active connections" None.

(** [DevicePool.getSession] *)
Definition getSession `{Env} (dp : DevicePool) : Eff (result Session * DevicePool) :=
  match last (dp_idle dp) with
  | Some sess =>
      (* len(dp.idle) > 0: take dp.idle[len-1], shrink the slice by one *)
      ret (Ok sess,
           with_sessions dp (take (length (dp_idle dp) - 1) (dp_idle dp))
                         ({[sess]} ∪ dp_active dp) (dp_createdAt dp))
  | None =>
      if bool_decide (dp_maxOpen dp ≤ Z.of_nat (size (dp_active dp))) then
        ret (Fail pool_exhausted, dp)
      else
        let! (sess, err) := call_open (dev_Driver (dp_device dp)) (dev_Endpoint (dp_device dp)) in
        match err with
        | Some e => ret (Fail e, dp)
        | None =>
            let! t := now in
            ret (Ok sess,
                 with_sessions dp (dp_idle dp) ({[sess]} ∪ dp_active dp)
                               (<[sess := t]> (dp_createdAt dp)))
        end
  end.

(** [DevicePool.returnSession] *)
Definition returnSession `{Env} (dp : DevicePool) (sess : Session) : Eff DevicePool :=
  let active := dp_active dp ∖ {[sess]} in
  if bool_decide (Z.of_nat (length (dp_idle dp)) < dp_maxIdle dp) then
    ret (with_sessions dp (dp_idle dp ++ [sess]) active (dp_createdAt dp))
  else
    let! _ := call_close sess in
    ret (with_sessions dp (dp_idle dp) active (delete sess (dp_createdAt dp))).

(** The loop of [DevicePool.cleanExpired] over [dp.idle]; [validIdle] and
    [createdAt] are the slice being built and the map being pruned. *)
Fixpoint cleanExpired_loop `{Env} (t : Time) (idleTime : Duration) (ss : list Session)
    (validIdle : list Session) (createdAt : gmap Session Time)
    : Eff (list Session * gmap Session Time) :=
  match ss with
  | [] => ret (validIdle, createdAt)
  | sess :: rest =>
      match createdAt !! sess with
      | Some created =>
          if bool_decide (time_Sub t created < idleTime) then
            cleanExpired_loop t idleTime rest (validIdle ++ [sess]) createdAt
          else
            let! _ := call_close sess in
            cleanExpired_loop t idleTime rest validIdle (delete sess createdAt)
      | None =>
          let! _ := call_close sess in
          cleanExpired_loop t idleTime rest validIdle createdAt
      end
  end.

(** [DevicePool.cleanExpired] *)
Definition cleanExpired `{Env} (dp : DevicePool) : Eff DevicePool :=
  let! t := now in
  let! (validIdle, createdAt) :=
    cleanExpired_loop t (dp_idleTime dp) (dp_idle dp) [] (dp_createdAt dp) in
  ret (with_sessions dp validIdle (dp_active dp) createdAt).

Fixpoint close_each `{Env} (ss : list Session) : Eff unit :=
  match ss with
  | [] => ret tt
  | sess :: rest => let! _ := call_close sess in close_each rest
  end.

(** [DevicePool.closeAll] *)
Definition closeAll `{Env} (dp : DevicePool) : Eff DevicePool :=
  let! _ := close_each (dp_idle dp) in
  let! _ := close_each (range_order Session (elements (dp_active dp))) in
  ret (with_sessions dp [] ∅ ∅).

(** [ConnectionPool.GetSession] *)
Definition GetSession `{Env} (p : ConnectionPool) (id : MinerID) (device : Device)
    : Eff (result Session * ConnectionPool) :=
  let! _ := emit (EvGetSession id) in
  let pool := match cp_pools p !! id with
              | Some pool => pool
              | None => new_DevicePool p device
              end in
  let! (r, pool') := getSession pool in
  ret (r, with_pools p (<[id := pool']> (cp_pools p))).

(** [ConnectionPool.ReturnSession] *)
Definition ReturnSession `{Env} (p : ConnectionPool) (id : MinerID) (sess : Session)
    : Eff ConnectionPool :=
  let! _ := emit (EvReturnSession id sess) in
  match cp_pools p !! id with
  | Some pool =>
      let! pool' := returnSession pool sess in
      ret (with_pools p (<[id := pool']> (cp_pools p)))
  | None =>
      let! _ := call_close sess in
      ret p
  end.

(** The second loop of [ConnectionPool.CleanUp], over the snapshot. *)
Fixpoint CleanUp_loop `{Env} (snapshot : list (MinerID * DevicePool))
    (pools : gmap MinerID DevicePool) : Eff (gmap MinerID DevicePool) :=
  match snapshot with
  | [] => ret pools
  | (id, pool) :: rest =>
      let! pool' := cleanExpired pool in
      CleanUp_loop rest (<[id := pool']> pools)
  end.

(** [ConnectionPool.CleanUp] *)
Definition CleanUp `{Env} (p : ConnectionPool) : Eff ConnectionPool :=
  let snapshot := range_order _ (map_to_list (cp_pools p)) in
  let! pools := CleanUp_loop snapshot (cp_pools p) in
  ret (with_pools p pools).

Fixpoint Close_loop `{Env} (pools : list (MinerID * DevicePool)) : Eff (list (MinerID * DevicePool)) :=
  match pools with
  | [] => ret []
  | (id, pool) :: rest =>
      let! pool' := closeAll pool in
      let! rest' := Close_loop rest in
      ret ((id, pool') :: rest')
  end.

(** [ConnectionPool.Close]: every sub-pool is emptied by [closeAll], then
    the map is replaced by a fresh one, so the emptied sub-pools are no
    longer reachable from the pool. *)
Definition Close `{Env} (p : ConnectionPool) : Eff ConnectionPool :=
  let! _ := Close_loop (range_order _ (map_to_list (cp_pools p))) in
  ret (with_pools p ∅).

(** [ConnectionPool.Stats] *)
Definition pool_stats (pool : DevicePool) : PoolStats :=
  {| ActiveConnections := Z.of_nat (size (dp_active pool));
     IdleConnections := Z.of_nat (length (dp_idle pool));
     MaxOpen := dp_maxOpen pool;
     MaxIdle := dp_maxIdle pool |}.

Definition Stats (p : ConnectionPool) : gmap MinerID PoolStats :=
  pool_stats <$> cp_pools p.

(** Indexing a Go map, [m[id]]: the zero value when the key is absent. *)
Definition zero_PoolStats : PoolStats :=
  {| ActiveConnections := 0; IdleConnections := 0; MaxOpen := 0; MaxIdle := 0 |}.

Definition stats_index (m : gmap MinerID PoolStats) (id : MinerID) : PoolStats :=
  default zero_PoolStats (m !! id).

(** The eviction rule of [cleanExpired] in the words of the
    specification: a session is kept when it has a recorded creation time
    and its age [t.Sub(createdAt)] is below the time to live. *)
Definition fresh_at (t : Time) (idleTime : Duration) (createdAt : gmap Session Time)
    (s : Session) : bool :=
  match createdAt !! s with
  | Some created => bool_decide (time_Sub t created < idleTime)
  | None => false
  end.

Definition stale_at (t : Time) (idleTime : Duration) (createdAt : gmap Session Time)
    (s : Session) : bool :=
  negb (fresh_at t idleTime createdAt s).

(** Deleting the keys [ss] from a map, one after the other. *)
Definition delete_all (ss : list Session) (createdAt : gmap Session Time)
    : gmap Session Time :=
  foldl (λ m s, delete s m) createdAt ss.

(** The limit on idle sessions that governs device [id]: that of its
    sub-pool, or the one a new sub-pool would be given. *)
Definition sub_maxIdle (p : ConnectionPool) (id : MinerID) : Z :=
  match cp_pools p !! id with
  | Some pool => dp_maxIdle pool
  | None => cp_maxIdle p
  end.

(** One method call on a sub-pool in which [Driver.Open] does not hand out
    [s]: any [returnSession], [cleanExpired] or [closeAll], and any
    [getSession] except one that opens [s]. *)
Inductive quiet `{Env} (s : Session) : DevicePool → DevicePool → Prop :=
| quiet_getSession dp σ :
    (dp_idle dp = [] → (getSession dp σ).1.1 ≠ Ok s) →
    quiet s dp (getSession dp σ).1.2
| quiet_returnSession dp s' σ : quiet s dp (returnSession dp s' σ).1
| quiet_cleanExpired dp σ : quiet s dp (cleanExpired dp σ).1
| quiet_closeAll dp σ : quiet s dp (closeAll dp σ).1.

(** ** Manager *)

Record ManagerOptions : Type := { ProbeTimeout : Duration }.

Definition defaultOptions : ManagerOptions :=
  {| ProbeTimeout := 1200 * 1000000 |}.

Record Manager : Type := {
  m_reg : Registry;
  m_dev : gmap MinerID Device;
  m_opt : ManagerOptions;
  m_pool : ConnectionPool
}.

Definition with_dev (m : Manager) (dev : gmap MinerID Device) : Manager :=
  {| m_reg := m_reg m; m_dev := dev; m_opt := m_opt m; m_pool := m_pool m |}.

Definition with_pool (m : Manager) (pool : ConnectionPool) : Manager :=
  {| m_reg := m_reg m; m_dev := m_dev m; m_opt := m_opt m; m_pool := pool |}.

Definition NewManagerWithOptions (reg : Registry) (opt : ManagerOptions) : Manager :=
  {| m_reg := reg;
     m_dev := ∅;
     m_opt := opt;
     m_pool := SetLimits NewConnectionPool 5 10 (5 * Minute) |}.

Definition NewManager (reg : Registry) : Manager :=
  NewManagerWithOptions reg defaultOptions.

(** [Manager.AddOrDetect]; a nil driver argument is [None]. *)
Definition AddOrDetect `{Env} (m : Manager) (id : MinerID) (ep : Endpoint)
    (d : option Driver) : Eff (option error * Manager) :=
  let! r := match d with
            | Some d => ret (Ok d)
            | None => Registry_Detect (m_reg m) ep
            end in
  match r with
  | Fail err => ret (Some err, m)
  | Ok d =>
      let name := driver_name d in
      ret (None,
           with_dev m (<[id := {| dev_ID := id; dev_Endpoint := ep;
                                  dev_Driver := d; dev_DriverName := name |}]> (m_dev m)))
  end.

(** The [fn func(Session) error] argument of [WithSession].  It runs
    while no lock of the manager is held, so besides acting on the outside
    world it may call back into the manager; it is given the manager's
    state and hands back the state it leaves. *)
Definition Callback `{Env} : Type :=
  Session → Manager → World → (option error * Manager) * World.

Definition call_fn `{Env} (fn : Callback) (sess : Session) (m : Manager)
    : Eff (option error * Manager) :=
  λ σ, let '(r, w) := fn sess m (world σ) in
       (r, {| world := w; log := log σ ++ [EvCallback sess] |}).

(** [Manager.WithSession]; the deferred [ReturnSession] runs after [fn]
    has returned, on the pool as [fn] left it. *)
Definition WithSession `{Env} (m : Manager) (id : MinerID) (fn : Callback)
    : Eff (option error * Manager) :=
  match m_dev m !! id with
  | None => ret (Some ErrNotFound, m)
  | Some d =>
      let! (r, pool) := GetSession (m_pool m) id d in
      match r with
      | Fail err => ret (Some err, with_pool m pool)
      | Ok sess =>
          let! (res, m') := call_fn fn sess (with_pool m pool) in
          let! pool' := ReturnSession (m_pool m') id sess in
          ret (res, with_pool m' pool')
      end
  end.

(** [Manager.Close] *)
Definition Manager_Close `{Env} (m : Manager) : Eff (option error * Manager) :=
  let! pool := Close (m_pool m) in
  ret (None, with_pool m pool).

(** [Manager.GetPoolStats] *)
Definition GetPoolStats (m : Manager) : gmap MinerID PoolStats :=
  Stats (m_pool m).

(** Telling apart, in a log, invocations of the callback and calls of
    [ReturnSession]. *)
Definition is_callback (e : Event) : bool :=
  match e with
  | EvCallback _ => true
  | _ => false
  end.

Definition is_return (e : Event) : bool :=
  match e with
  | EvReturnSession _ _ => true
  | _ => false
  end.

(** The calls of [Close] that [closeAll] makes on a sub-pool. *)
Definition closeAll_calls `{Env} (pool : DevicePool) : list Event :=
  map EvClose (dp_idle pool ++ range_order Session (elements (dp_active pool))).

(** ** Histories of pool operations *)

Inductive PoolOp : Type :=
| OpSetLimits (maxIdle maxOpen : Z) (idleTime : Duration)
| OpGetSession (id : MinerID) (device : Device)
| OpReturnSession (id : MinerID) (sess : Session)
| OpCleanUp
| OpClose.

Definition apply_op `{Env} (op : PoolOp) (p : ConnectionPool) : Eff ConnectionPool :=
  match op with
  | OpSetLimits maxIdle maxOpen idleTime => ret (SetLimits p maxIdle maxOpen idleTime)
  | OpGetSession id device => let! (_, p') := GetSession p id device in ret p'
  | OpReturnSession id sess => ReturnSession p id sess
  | OpCleanUp => CleanUp p
  | OpClose => Close p
  end.

(** Pool states reachable from a new pool by operations that the usage
    rule [allowed] admits.  What the outside world does between two
    operations is arbitrary: each step starts from any [σ]. *)
Inductive reach `{Env} (allowed : ConnectionPool → PoolOp → Prop) : ConnectionPool → Prop :=
| reach_new : reach allowed NewConnectionPool
| reach_step p op σ :
    reach allowed p → allowed p op → reach allowed (apply_op op p σ).1.

(** No rule at all: any call with any argument. *)
Definition any_use (p : ConnectionPool) (op : PoolOp) : Prop := True.

(** A session is handed back only while the sub-pool of its device has it
    in its active set (or when that sub-pool is gone), and limits are not
    negative. *)
Definition return_active (p : ConnectionPool) (op : PoolOp) : Prop :=
  match op with
  | OpReturnSession id sess =>
      match cp_pools p !! id with
      | Some pool => sess ∈ dp_active pool
      | None => True
      end
  | OpSetLimits maxIdle maxOpen _ => 0 ≤ maxIdle ∧ 0 ≤ maxOpen
  | _ => True
  end.

(** The three bounds the specification lists for a sub-pool. *)
Definition idle_bounded (pool : DevicePool) : Prop :=
  Z.of_nat (length (dp_idle pool)) ≤ dp_maxIdle pool.

Definition active_bounded (pool : DevicePool) : Prop :=
  Z.of_nat (size (dp_active pool)) ≤ dp_maxOpen pool.

Definition idle_active_disjoint (pool : DevicePool) : Prop :=
  ∀ s, s ∈ dp_idle pool → s ∉ dp_active pool.

Definition pool_inv (pool : DevicePool) : Prop :=
  idle_bounded pool ∧ active_bounded pool ∧ idle_active_disjoint pool.

(** What the pool keeps true of a sub-pool whatever its callers do: the
    idle list respects a non-negative [maxIdle]. *)
Definition idle_kept_bounded (pool : DevicePool) : Prop :=
  0 ≤ dp_maxIdle pool → idle_bounded pool.

(** What the pool keeps true, whatever its callers do, of a sub-pool that
    may hold no idle session: its idle list is empty and its active
    sessions number at most [maxOpen]. *)
Definition never_idle (pool : DevicePool) : Prop :=
  dp_maxIdle pool ≤ 0 →
  dp_idle pool = [] ∧ Z.of_nat (size (dp_active pool)) ≤ Z.max 0 (dp_maxOpen pool).

(** What holds of a sub-pool when sessions are handed back only while
    active: besides the three bounds, the idle list has no duplicates and
    idle and active sessions together number at most [maxOpen]. *)
Definition well_formed (pool : DevicePool) : Prop :=
  0 ≤ dp_maxIdle pool ∧
  NoDup (dp_idle pool) ∧
  idle_active_disjoint pool ∧
  idle_bounded pool ∧
  Z.of_nat (length (dp_idle pool) + size (dp_active pool)) ≤ dp_maxOpen pool.

(** Removes the first occurrence of [x]. *)
Fixpoint remove_first {A} `{EqDecision A} (x : A) (l : list A) : list A :=
  match l with
  | [] => []
  | y :: l' => if decide (x = y) then l' else y :: remove_first x l'
  end.

(** Runs a history while keeping the list [out] of sessions that callers
    hold: [GetSession] adds the session it yields, [ReturnSession] is only
    accepted for a session in [out] and takes it off, so that no session is
    handed back more often than it was checked out.  [None] when the
    history breaks that rule. *)
Fixpoint run_history `{Env} (ops : list PoolOp) (p : ConnectionPool)
    (out : list (MinerID * Session)) (σ : Sys)
    : option (ConnectionPool * list (MinerID * Session) * Sys) :=
  match ops with
  | [] => Some (p, out, σ)
  | OpGetSession id device :: rest =>
      let '((r, p'), σ') := GetSession p id device σ in
      run_history rest p' (match r with Ok s => (id, s) :: out | Fail _ => out end) σ'
  | OpReturnSession id sess :: rest =>
      if bool_decide ((id, sess) ∈ out) then
        let '(p', σ') := ReturnSession p id sess σ in
        run_history rest p' (remove_first (id, sess) out) σ'
      else None
  | op :: rest =>
      let '(p', σ') := apply_op op p σ in
      run_history rest p' out σ'
  end.

(** ** The rest of the registry, manager and error code *)

(** The loop of [Registry.Get]; a nil result is [None]. *)
Fixpoint Get_loop `{Env} (ds : list Driver) (name : string) : option Driver :=
  match ds with
  | [] => None
  | d :: rest => if String.eqb (driver_name d) name then Some d else Get_loop rest name
  end.

(** [Registry.Get] *)
Definition Registry_Get `{Env} (r : Registry) (name : string) : option Driver :=
  Get_loop (drivers r) name.

(** [Manager.List]: the records of the device table, in the order the
    [range] over the map happens to take. *)
Definition Manager_List `{Env} (m : Manager) : list Device :=
  map snd (range_order _ (map_to_list (m_dev m))).

Record DeviceInfo : Type := {
  info_ID : string;
  info_Address : string;
  info_Driver : string
}.

Definition device_info (d : Device) : DeviceInfo :=
  {| info_ID := dev_ID d;
     info_Address := Address (dev_Endpoint d);
     info_Driver := dev_DriverName d |}.

(** [Manager.DeviceInfos] *)
Definition DeviceInfos `{Env} (m : Manager) : list DeviceInfo :=
  map (λ entry, device_info entry.2) (range_order _ (map_to_list (m_dev m))).

(** The remaining error codes, and [MultiMinerError.HTTPStatus], which
    reads nothing of the error but its code. *)
Definition ErrCodeNotImplemented : string := "NOT_IMPLEMENTED".
Definition ErrCodeInvalidInput : string := "INVALID_INPUT".
Definition ErrCodeConnectionFailed : string := "CONNECTION_FAILED".
Definition ErrCodeTimeout : string := "TIMEOUT".
Definition ErrCodeUnauthorized : string := "UNAUTHORIZED".
Definition ErrCodeInternalError : string := "INTERNAL_ERROR".

Definition HTTPStatus (Code : string) : Z :=
  if String.eqb Code ErrCodeNotFound || String.eqb Code ErrCodeDriverNotFound then 404
  else if String.eqb Code ErrCodeNotImplemented then 501
  else if String.eqb Code ErrCodeInvalidInput then 400
  else if String.eqb Code ErrCodeUnauthorized then 401
  else if String.eqb Code ErrCodeConnectionFailed || String.eqb Code ErrCodeTimeout
          || String.eqb Code ErrCodeDeviceError then 502
  else 500.

(** Managers built from a new one by [AddOrDetect], [Close], and
    [WithSession] with a callback that leaves the device table as it
    finds it. *)
Inductive built `{Env} : Manager → Prop :=
| built_new reg opt : built (NewManagerWithOptions reg opt)
| built_AddOrDetect m id ep d σ : built m → built (AddOrDetect m id ep d σ).1.2
| built_Close m σ : built m → built (Manager_Close m σ).1.2
| built_WithSession m id fn σ :
    built m →
    (∀ sess m0 w, m_dev (fn sess m0 w).1.2 = m_dev m0) →
    built (WithSession m id fn σ).1.2.

(** Every record of the device table sits under its own id and carries
    the name of its driver. *)
Definition table_consistent `{Env} (m : Manager) : Prop :=
  ∀ id d, m_dev m !! id = Some d →
          dev_ID d = id ∧ dev_DriverName d = driver_name (dev_Driver d).

(** How often [Close] is called on [s] in a log. *)
Definition close_count (s : Session) (calls : list Event) : nat :=
  length (List.filter (λ e, match e with
                            | EvClose s' => bool_decide (s' = s)
                            | _ => false
                            end) calls).

(** Whether a call is a call of [Close]. *)
Definition is_close (e : Event) : bool :=
  match e with
  | EvClose _ => true
  | _ => false
  end.

(** Two states of a sub-pool with the same device record and limits. *)
Definition same_config (pool pool' : DevicePool) : Prop :=
  dp_device pool' = dp_device pool ∧
  dp_maxIdle pool' = dp_maxIdle pool ∧
  dp_maxOpen pool' = dp_maxOpen pool ∧
  dp_idleTime pool' = dp_idleTime pool.

(** A sub-pool before and after a clean-up pass: same device and limits,
    same active set, and an idle list that has only lost entries. *)
Definition swept (pool pool' : DevicePool) : Prop :=
  same_config pool pool' ∧
  dp_active pool' = dp_active pool ∧
  sublist (dp_idle pool') (dp_idle pool).

(** ** A scripted environment for concrete runs

    The world is a clock and the list of outcomes the next calls of
    [Open] will have; each [Open] consumes one and lets a second pass.
    Driver 2 claims every endpoint, driver 3 fails to probe with an
    error, every other driver declines. *)

Record SimWorld : Type := {
  sim_clock : Time;
  sim_opens : list (Session * option error)
}.

Definition connection_refused : error := OtherError "connection refused".
Definition probe_failed : error := OtherError "probe failed".

Definition sim_detect (d : Driver) (ep : Endpoint) (w : SimWorld)
    : (bool * option error) * SimWorld :=
  match d with
  | 2%nat => ((true, None), w)
  | 3%nat => ((false, Some probe_failed), w)
  | _ => ((false, None), w)
  end.

Definition sim_open (d : Driver) (ep : Endpoint) (w : SimWorld)
    : (Session * option error) * SimWorld :=
  match sim_opens w with
  | r :: rest => (r, {| sim_clock := sim_clock w + 1000000000; sim_opens := rest |})
  | [] => ((0%nat, Some connection_refused), w)
  end.

Definition sim_name (d : Driver) : string :=
  match d with
  | 2%nat => "antminer"
  | 3%nat => "whatsminer"
  | _ => "cgminer"
  end.

#[local] Instance simEnv : Env := {|
  World := SimWorld;
  driver_name := sim_name;
  driver_detect := sim_detect;
  driver_open := sim_open;
  session_close := λ _ w, (None, w);
  time_now := sim_clock;
  range_order := λ _ l, l;
  range_order_perm := λ A l, Permutation_refl l
|}.

Definition sim_sys (clock : Time) (opens : list (Session * option error)) : @Sys simEnv :=
  {| world := {| sim_clock := clock; sim_opens := opens |}; log := [] |}.

Definition sim_endpoint : Endpoint := {| Address := "192.168.1.100:4028" |}.

Definition sim_device (id : MinerID) : Device :=
  {| dev_ID := id;
     dev_Endpoint := sim_endpoint;
     dev_Driver := 2%nat;
     dev_DriverName := "antminer" |}.

(** A history in which a session checked out before [Close] is handed
    back after the device's sub-pool has been created anew. *)
Definition history_return_after_Close : list PoolOp :=
  [OpSetLimits 1 1 Minute;
   OpGetSession "x" (sim_device "x");
   OpClose;
   OpGetSession "x" (sim_device "x");
   OpReturnSession "x" 1%nat;
   OpGetSession "x" (sim_device "x")].

Definition two_opens : @Sys simEnv := sim_sys 0 [(1%nat, None); (2%nat, None)].

Definition one_open : @Sys simEnv := sim_sys 0 [(1%nat, None)].

(** One session is opened for device x under [maxOpen = 1]; the device
    then refuses further connections. *)
Definition exhausted_run (maxIdle : Z)
    : option (ConnectionPool * list (MinerID * Session) * @Sys simEnv) :=
  run_history [OpSetLimits maxIdle 1 Minute; OpGetSession "x" (sim_device "x")]
              NewConnectionPool [] one_open.

Definition exhausted_pool (maxIdle : Z) : ConnectionPool :=
  match exhausted_run maxIdle with
  | Some (p, _, _) => p
  | None => NewConnectionPool
  end.

Definition exhausted_sys (maxIdle : Z) : @Sys simEnv :=
  match exhausted_run maxIdle with
  | Some (_, _, σ) => σ
  | None => one_open
  end.

(** The sub-pool of device x at the end of [exhausted_run]. *)
Definition exhausted_sub_pool (maxIdle : Z) : DevicePool :=
  {| dp_device := sim_device "x";
     dp_idle := [];
     dp_active := {[1%nat]};
     dp_createdAt := {[1%nat := 1000000000]};
     dp_maxIdle := maxIdle;
     dp_maxOpen := 1;
     dp_idleTime := Minute |}.

(** A session opened once, reused once, and handed back again shortly
    before a clean-up pass. *)
Definition fresh_sub_pool : DevicePool :=
  new_DevicePool (SetLimits NewConnectionPool 5 10 Minute) (sim_device "x").

Definition opened_pool : DevicePool := (getSession fresh_sub_pool one_open).1.2.

Definition returned_pool : DevicePool :=
  (returnSession opened_pool 1%nat (sim_sys 30000000000 [])).1.

Definition reused_pool : DevicePool :=
  (getSession returned_pool (sim_sys 40000000000 [])).1.2.

Definition returned_again_pool : DevicePool :=
  (returnSession reused_pool 1%nat (sim_sys 60999999999 [])).1.

(** The same session returned by a second [Open] fifty seconds later,
    while the first is still checked out, and then handed back. *)
Definition reopened_pool : DevicePool :=
  (getSession opened_pool (sim_sys 50000000000 [(1%nat, None)])).1.2.

Definition reopened_idle_pool : DevicePool :=
  (returnSession reopened_pool 1%nat (sim_sys 55000000000 [])).1.

(** A sub-pool with a time to live of one minute.  At clock reading 70 s
    session 1 is 70 seconds old, session 2 is 20 and session 4 is 15;
    session 3 has no creation time on record; session 7 is active. *)
Definition aged_pool : DevicePool :=
  {| dp_device := sim_device "x";
     dp_idle := [1; 2; 3; 4]%nat;
     dp_active := {[7%nat]};
     dp_createdAt := {[1%nat := 0; 2%nat := 50000000000; 4%nat := 55000000000; 7%nat := 0]};
     dp_maxIdle := 5;
     dp_maxOpen := 10;
     dp_idleTime := Minute |}.

(** A sub-pool whose time to live is the least [Duration] and whose idle
    session has a creation time about a thousand years ahead of the
    clock, further than a [Duration] can tell. *)
Definition far_future_pool : DevicePool :=
  {| dp_device := sim_device "x";
     dp_idle := [1%nat];
     dp_active := ∅;
     dp_createdAt := {[1%nat := 32503680000000000000]};
     dp_maxIdle := 5;
     dp_maxOpen := 10;
     dp_idleTime := MinDuration |}.

(** A manager with three drivers registered, and the same with device x
    added and one idle and one active session for it. *)
Definition sim_manager : Manager := NewManager (foldl Register NewRegistry [1; 2; 3]%nat).

Definition busy_sub_pool : DevicePool :=
  {| dp_device := sim_device "x";
     dp_idle := [1%nat];
     dp_active := {[2%nat]};
     dp_createdAt := {[1%nat := 1000000000; 2%nat := 2000000000]};
     dp_maxIdle := 5;
     dp_maxOpen := 10;
     dp_idleTime := 5 * Minute |}.

Definition busy_manager : Manager :=
  {| m_reg := m_reg sim_manager;
     m_dev := {["x" := sim_device "x"]};
     m_opt := defaultOptions;
     m_pool := with_pools (m_pool sim_manager) {["x" := busy_sub_pool]} |}.

(** A callback that fails, and leaves manager and world alone. *)
Definition failing_fn : @Callback simEnv :=
  λ _ m w, ((Some (OtherError "boom"), m), w).

(** Device x registered with driver 2 at one address, a session taken
    out, and x registered again with driver 1 at another address. *)
Definition moved_endpoint : Endpoint := {| Address := "10.0.0.9:4028" |}.

Definition moved_manager : Manager :=
  let m1 := (AddOrDetect sim_manager "x" sim_endpoint (Some 2%nat) one_open).1.2 in
  let p1 := (GetSession (m_pool m1) "x" (sim_device "x") one_open).1.2 in
  (AddOrDetect (with_pool m1 p1) "x" moved_endpoint (Some 1%nat) one_open).1.2.

Definition moved_sub_pool : DevicePool :=
  {| dp_device := sim_device "x";
     dp_idle := [];
     dp_active := {[1%nat]};
     dp_createdAt := {[1%nat := 1000000000]};
     dp_maxIdle := 5;
     dp_maxOpen := 10;
     dp_idleTime := 5 * Minute |}.

(** A pool with room for one idle session, after session 1 was taken
    out and then handed back twice. *)
Definition returned_twice_pool : ConnectionPool :=
  (apply_op (OpReturnSession "x" 1%nat)
     (apply_op (OpReturnSession "x" 1%nat)
        (apply_op (OpGetSession "x" (sim_device "x"))
           (apply_op (OpSetLimits 1 1 Minute) NewConnectionPool one_open).1
           one_open).1
        one_open).1
     one_open).1.

(** A new pool after session 1 was taken out and handed back. *)
Definition returned_once_pool : ConnectionPool :=
  (apply_op (OpReturnSession "x" 1%nat)
     (apply_op (OpGetSession "x" (sim_device "x")) NewConnectionPool one_open).1
     one_open).1.

(** * Properties *)

(** ** Registry *)

Section RegistryFacts.
Context `{Env}.

Lemma drivers_Register_all (ds : list Driver) :
  drivers (foldl Register NewRegistry ds) = ds.
Proof.
  assert (Hgen : ∀ r, drivers (foldl Register r ds) = drivers r ++ ds).
  { induction ds as [|d ds IH]; intros r; simpl.
    - by rewrite app_nil_r.
    - rewrite IH. simpl. by rewrite <- app_assoc. }
  by rewrite Hgen.
Qed.

Lemma call_detect_log d ep σ r σ' :
  call_detect d ep σ = (r, σ') → log σ' = log σ ++ [EvDetect d ep].
Proof.
  unfold call_detect. destruct (driver_detect d ep (world σ)) as [r0 w].
  intros [= _ <-]. done.
Qed.

Lemma all_decline_log ep ds σ σ' :
  all_decline ep ds σ σ' → log σ' = log σ ++ map (λ d, EvDetect d ep) ds.
Proof.
  induction 1 as [σ|d ds σ σ1 σ' Hd _ IH]; simpl.
  - by rewrite app_nil_r.
  - rewrite IH, (call_detect_log _ _ _ _ _ Hd), <- app_assoc. done.
Qed.

(** The loop skips a prefix of drivers that all decline. *)
Lemma detect_loop_skip ep ds1 ds2 σ σ1 :
  all_decline ep ds1 σ σ1 →
  detect_loop (ds1 ++ ds2) ep σ = detect_loop ds2 ep σ1.
Proof.
  induction 1 as [σ|d ds σ σ1 σ' Hd _ IH]; simpl; [done|].
  unfold bind at 1. rewrite Hd. exact IH.
Qed.

(** C3: [Registry.Detect] answers with the first driver, in registration
    order, whose [Detect] returns [(true, nil)] after every driver
    registered before it returned [(false, nil)]; when every registered
    driver returns [(false, nil)] it answers with the driver-not-found
    error. *)
Theorem Registry_Detect_first_match (r : Registry) (ep : Endpoint) (σ : Sys) :
  (∀ ds1 d ds2 σ1 σ2,
      drivers r = ds1 ++ d :: ds2 →
      all_decline ep ds1 σ σ1 →
      call_detect d ep σ1 = ((true, None), σ2) →
      Registry_Detect r ep σ = (Ok d, σ2)) ∧
  (∀ σ',
      all_decline ep (drivers r) σ σ' →
      Registry_Detect r ep σ = (Fail NewDriverNotFoundError, σ')).
Proof.
  unfold Registry_Detect. split.
  - intros ds1 d ds2 σ1 σ2 -> Hskip Hd.
    rewrite (detect_loop_skip _ _ _ _ _ Hskip). simpl.
    unfold bind. rewrite Hd. done.
  - intros σ' Hall.
    rewrite <- (app_nil_r (drivers r)).
    rewrite (detect_loop_skip _ _ _ _ _ Hall). done.
Qed.

(** C4: when a driver's [Detect] returns an error after every driver
    registered before it returned [(false, nil)], [Registry.Detect] returns
    that very error, and the calls it made are the probes of the drivers up
    to that one and nothing else: no driver registered later is probed,
    whatever it would have answered. *)
Theorem Registry_Detect_error_short_circuits
    (r : Registry) (ep : Endpoint) (σ σ1 σ2 : Sys)
    (ds1 ds2 : list Driver) (d : Driver) (ok : bool) (e : error) :
  drivers r = ds1 ++ d :: ds2 →
  all_decline ep ds1 σ σ1 →
  call_detect d ep σ1 = ((ok, Some e), σ2) →
  Registry_Detect r ep σ = (Fail e, σ2) ∧
  log σ2 = log σ ++ map (λ d', EvDetect d' ep) (ds1 ++ [d]).
Proof.
  intros Hr Hskip Hd. unfold Registry_Detect. rewrite Hr. split.
  - rewrite (detect_loop_skip _ _ _ _ _ Hskip). simpl.
    unfold bind. rewrite Hd. done.
  - rewrite (call_detect_log _ _ _ _ _ Hd), (all_decline_log _ _ _ _ Hskip).
    rewrite map_app, <- app_assoc. done.
Qed.

End RegistryFacts.

Lemma Registry_Detect_first_match_witness :
  Registry_Detect (foldl Register NewRegistry [1; 2; 3]%nat) sim_endpoint (sim_sys 0 [])
  = (Ok 2%nat,
     {| world := world (sim_sys 0 []);
        log := [EvDetect 1%nat sim_endpoint; EvDetect 2%nat sim_endpoint] |}) ∧
  Registry_Detect (foldl Register NewRegistry [1; 4]%nat) sim_endpoint (sim_sys 0 [])
  = (Fail NewDriverNotFoundError,
     {| world := world (sim_sys 0 []);
        log := [EvDetect 1%nat sim_endpoint; EvDetect 4%nat sim_endpoint] |}).
Proof.
  split.
  - apply (proj1 (Registry_Detect_first_match _ sim_endpoint (sim_sys 0 []))
             [1%nat] 2%nat [3%nat]
             {| world := world (sim_sys 0 []); log := [EvDetect 1%nat sim_endpoint] |}).
    + reflexivity.
    + eapply all_decline_cons; [reflexivity | apply all_decline_nil].
    + reflexivity.
  - apply (proj2 (Registry_Detect_first_match _ sim_endpoint (sim_sys 0 []))).
    eapply all_decline_cons; [reflexivity |].
    eapply all_decline_cons; [reflexivity |].
    apply all_decline_nil.
Defined.

Lemma Registry_Detect_error_short_circuits_witness :
  Registry_Detect (foldl Register NewRegistry [1; 3; 2]%nat) sim_endpoint (sim_sys 0 [])
  = (Fail probe_failed,
     {| world := world (sim_sys 0 []);
        log := [EvDetect 1%nat sim_endpoint; EvDetect 3%nat sim_endpoint] |}) ∧
  [EvDetect 1%nat sim_endpoint; EvDetect 3%nat sim_endpoint]
  = [] ++ map (λ d', EvDetect d' sim_endpoint) ([1%nat] ++ [3%nat]).
Proof.
  apply (Registry_Detect_error_short_circuits
           (foldl Register NewRegistry [1; 3; 2]%nat) sim_endpoint (sim_sys 0 [])
           {| world := world (sim_sys 0 []); log := [EvDetect 1%nat sim_endpoint] |}
           {| world := world (sim_sys 0 []);
              log := [EvDetect 1%nat sim_endpoint; EvDetect 3%nat sim_endpoint] |}
           [1%nat] [2%nat] 3%nat false probe_failed).
  - reflexivity.
  - eapply all_decline_cons; [reflexivity | apply all_decline_nil].
  - reflexivity.
Defined.

(** ** Device sub-pool: what each method does, case by case *)

Section DevicePoolFacts.
Context `{Env}.

Lemma last_snoc_take (l : list Session) (x : Session) :
  last (l ++ [x]) = Some x ∧ take (length (l ++ [x]) - 1) (l ++ [x]) = l.
Proof.
  split; [apply last_snoc|].
  rewrite length_app. simpl.
  replace (length l + 1 - 1)%nat with (length l) by lia.
  by rewrite take_app_length.
Qed.

Lemma getSession_reuse (dp : DevicePool) (l : list Session) (x : Session) (σ : Sys) :
  dp_idle dp = l ++ [x] →
  getSession dp σ
  = ((Ok x, with_sessions dp l ({[x]} ∪ dp_active dp) (dp_createdAt dp)), σ).
Proof.
  intros Hidle. unfold getSession. rewrite Hidle.
  destruct (last_snoc_take l x) as [-> ->]. done.
Qed.

Lemma getSession_exhausted (dp : DevicePool) (σ : Sys) :
  dp_idle dp = [] →
  dp_maxOpen dp ≤ Z.of_nat (size (dp_active dp)) →
  getSession dp σ = ((Fail pool_exhausted, dp), σ).
Proof.
  intros Hidle Hfull. unfold getSession. rewrite Hidle. simpl.
  by rewrite bool_decide_eq_true_2.
Qed.

Lemma getSession_open (dp : DevicePool) (σ σ1 : Sys) (s : Session) (err : option error) :
  dp_idle dp = [] →
  Z.of_nat (size (dp_active dp)) < dp_maxOpen dp →
  call_open (dev_Driver (dp_device dp)) (dev_Endpoint (dp_device dp)) σ = ((s, err), σ1) →
  getSession dp σ
  = match err with
    | Some e => ((Fail e, dp), σ1)
    | None =>
        ((Ok s, with_sessions dp [] ({[s]} ∪ dp_active dp)
                  (<[s := time_now (world σ1)]> (dp_createdAt dp))), σ1)
    end.
Proof.
  intros Hidle Hroom Hopen. unfold getSession. rewrite Hidle. simpl.
  rewrite bool_decide_eq_false_2 by lia.
  unfold bind. rewrite Hopen. destruct err; [done|].
  unfold now, ret, with_sessions. simpl. by rewrite ?Hidle.
Qed.

Lemma returnSession_room (dp : DevicePool) (s : Session) (σ : Sys) :
  Z.of_nat (length (dp_idle dp)) < dp_maxIdle dp →
  returnSession dp s σ
  = (with_sessions dp (dp_idle dp ++ [s]) (dp_active dp ∖ {[s]}) (dp_createdAt dp), σ).
Proof.
  intros Hroom. unfold returnSession. by rewrite bool_decide_eq_true_2.
Qed.

Lemma returnSession_full (dp : DevicePool) (s : Session) (σ : Sys) :
  dp_maxIdle dp ≤ Z.of_nat (length (dp_idle dp)) →
  returnSession dp s σ
  = (with_sessions dp (dp_idle dp) (dp_active dp ∖ {[s]}) (delete s (dp_createdAt dp)),
     (call_close s σ).2).
Proof.
  intros Hfull. unfold returnSession. rewrite bool_decide_eq_false_2 by lia.
  unfold bind. destruct (call_close s σ). done.
Qed.

Lemma call_close_log (s : Session) (σ : Sys) :
  log (call_close s σ).2 = log σ ++ [EvClose s].
Proof. unfold call_close. by destruct (session_close s (world σ)). Qed.

Lemma call_open_log (d : Driver) (ep : Endpoint) (σ : Sys) :
  log (call_open d ep σ).2 = log σ ++ [EvOpen d ep].
Proof. unfold call_open. by destruct (driver_open d ep (world σ)). Qed.

Lemma close_each_app (l1 l2 : list Session) (σ : Sys) :
  close_each (l1 ++ l2) σ = close_each l2 (close_each l1 σ).2.
Proof.
  revert σ. induction l1 as [|s l1 IH]; intros σ; simpl; [done|].
  unfold bind. destruct (call_close s σ) as [r σ1]. apply IH.
Qed.

Lemma close_each_log (l : list Session) (σ : Sys) :
  log (close_each l σ).2 = log σ ++ map EvClose l.
Proof.
  revert σ. induction l as [|s l IH]; intros σ; simpl.
  - by rewrite app_nil_r.
  - unfold bind. destruct (call_close s σ) as [r σ1] eqn:Hc. rewrite IH.
    unfold call_close in Hc. destruct (session_close s (world σ)) as [r0 w].
    injection Hc as _ <-. simpl. by rewrite <- app_assoc.
Qed.

Lemma fresh_at_delete_stale t ttl (cAt : gmap Session Time) (s s' : Session) :
  fresh_at t ttl cAt s = false →
  fresh_at t ttl (delete s cAt) s' = fresh_at t ttl cAt s'.
Proof.
  intros Hs. unfold fresh_at in *.
  destruct (decide (s = s')) as [<-|Hne].
  - rewrite lookup_delete_eq. done.
  - by rewrite lookup_delete_ne.
Qed.

Lemma filter_ext_fresh t ttl (cAt : gmap Session Time) (s : Session) (l : list Session) :
  fresh_at t ttl cAt s = false →
  List.filter (fresh_at t ttl (delete s cAt)) l = List.filter (fresh_at t ttl cAt) l ∧
  List.filter (stale_at t ttl (delete s cAt)) l = List.filter (stale_at t ttl cAt) l.
Proof.
  intros Hs. split; apply List.filter_ext; intros s'; unfold stale_at;
    by rewrite fresh_at_delete_stale.
Qed.

(** The loop of [cleanExpired] is a filter: it appends the fresh sessions
    to [validIdle] in their order, closes the stale ones in their order and
    deletes their creation times. *)
Lemma cleanExpired_loop_filter t ttl (ss valid : list Session)
    (cAt : gmap Session Time) (σ : Sys) :
  cleanExpired_loop t ttl ss valid cAt σ
  = ((valid ++ List.filter (fresh_at t ttl cAt) ss,
      delete_all (List.filter (stale_at t ttl cAt) ss) cAt),
     (close_each (List.filter (stale_at t ttl cAt) ss) σ).2).
Proof.
  revert valid cAt σ. induction ss as [|s ss IH]; intros valid cAt σ; simpl.
  - by rewrite app_nil_r.
  - assert (Hf : fresh_at t ttl cAt s
                 = match cAt !! s with
                   | Some c => bool_decide (time_Sub t c < ttl)
                   | None => false
                   end) by done.
    assert (Hs : stale_at t ttl cAt s = negb (fresh_at t ttl cAt s)) by done.
    rewrite Hs. destruct (cAt !! s) as [c|] eqn:Hc.
    + destruct (bool_decide (time_Sub t c < ttl)) eqn:Hage; rewrite Hf; simpl.
      * rewrite IH, <- app_assoc. done.
      * unfold bind. destruct (call_close s σ) as [r σ1].
        rewrite IH. destruct (filter_ext_fresh t ttl cAt s ss Hf) as [-> ->].
        done.
    + rewrite Hf. simpl. unfold bind. destruct (call_close s σ) as [r σ1].
      rewrite IH. rewrite (delete_id cAt s Hc). done.
Qed.

End DevicePoolFacts.

(** ** Idle eviction *)

Section CleanExpiredFacts.
Context `{Env}.

Lemma lookup_delete_all (ss : list Session) (m : gmap Session Time) (s : Session) :
  delete_all ss m !! s = if decide (s ∈ ss) then None else m !! s.
Proof.
  unfold delete_all. revert m. induction ss as [|x ss IH]; intros m.
  - destruct (decide (s ∈ [])) as [Hin|_]; [by apply not_elem_of_nil in Hin | done].
  - cbn [foldl]. rewrite IH.
    destruct (decide (s ∈ ss)) as [Hin|Hnin];
      destruct (decide (s ∈ x :: ss)) as [Hin'|Hnin']; try done.
    + exfalso. apply Hnin'. by right.
    + apply elem_of_cons in Hin' as [->|?]; [apply lookup_delete_eq | done].
    + apply lookup_delete_ne. intros ->. apply Hnin'. by left.
Qed.

Lemma elem_of_filter_bool (f : Session → bool) (l : list Session) (s : Session) :
  s ∈ List.filter f l ↔ s ∈ l ∧ f s = true.
Proof. rewrite !list_elem_of_In. apply List.filter_In. Qed.

Lemma cleanExpired_eq (dp : DevicePool) (σ : Sys) :
  cleanExpired dp σ
  = (with_sessions dp
       (List.filter (fresh_at (time_now (world σ)) (dp_idleTime dp) (dp_createdAt dp))
                    (dp_idle dp))
       (dp_active dp)
       (delete_all
          (List.filter (stale_at (time_now (world σ)) (dp_idleTime dp) (dp_createdAt dp))
                       (dp_idle dp))
          (dp_createdAt dp)),
     (close_each
        (List.filter (stale_at (time_now (world σ)) (dp_idleTime dp) (dp_createdAt dp))
                     (dp_idle dp)) σ).2).
Proof.
  unfold cleanExpired, bind, now. rewrite cleanExpired_loop_filter. done.
Qed.

Lemma fresh_at_true t ttl (cAt : gmap Session Time) (s : Session) :
  fresh_at t ttl cAt s = true ↔
  ∃ created : Time, cAt !! s = Some created ∧ time_Sub t created < ttl.
Proof.
  unfold fresh_at. destruct (cAt !! s) as [c|].
  - rewrite bool_decide_eq_true. split; [eauto|]. by intros (c' & [= <-] & ?).
  - split; [done|]. by intros (c' & [=] & ?).
Qed.

Lemma cleanExpired_idle_iff (dp : DevicePool) (σ : Sys) (s : Session) :
  s ∈ dp_idle (cleanExpired dp σ).1 ↔
  (s ∈ dp_idle dp ∧
   ∃ created : Time, dp_createdAt dp !! s = Some created ∧
                     time_Sub (time_now (world σ)) created < dp_idleTime dp).
Proof. rewrite cleanExpired_eq. simpl. by rewrite elem_of_filter_bool, fresh_at_true. Qed.

(** Against a time to live that is a [Duration] other than the least one,
    the saturated difference compares as the exact one does. *)
Lemma time_Sub_lt (t u : Time) (ttl : Duration) :
  MinDuration < ttl ≤ MaxDuration →
  time_Sub t u < ttl ↔ t - u < ttl.
Proof. unfold time_Sub. lia. Qed.

(** Against any [Duration], an exact difference that has reached it has
    reached it when saturated too. *)
Lemma time_Sub_ge (t u : Time) (ttl : Duration) :
  ttl ≤ MaxDuration → ttl ≤ t - u → ttl ≤ time_Sub t u.
Proof. unfold time_Sub. lia. Qed.

(** C8: [cleanExpired] keeps in the idle list exactly the sessions whose
    recorded age [now.Sub(createdAt)] is below the time to live, in their
    order; it calls [Close] on every other idle session, among them those
    without a recorded creation time, and drops them; the active set, and
    the creation time of any session outside the idle list, stay as they
    were; the idle count of [Stats] is the number of sessions kept.  For
    every time to live but the least [Duration], the age compares as the
    exact difference [now - createdAt] does. *)
Theorem cleanExpired_keeps_fresh (dp : DevicePool) (σ : Sys) :
  let t := time_now (world σ) in
  let fresh := fresh_at t (dp_idleTime dp) (dp_createdAt dp) in
  let stale := stale_at t (dp_idleTime dp) (dp_createdAt dp) in
  let dp' := (cleanExpired dp σ).1 in
  let σ' := (cleanExpired dp σ).2 in
  dp_idle dp' = List.filter fresh (dp_idle dp) ∧
  (∀ s, (s ∈ dp_idle dp') ↔
        (s ∈ dp_idle dp ∧ ∃ created : Time, dp_createdAt dp !! s = Some created ∧
                                            time_Sub t created < dp_idleTime dp)) ∧
  (MinDuration < dp_idleTime dp ≤ MaxDuration →
   ∀ s, (s ∈ dp_idle dp') ↔
        (s ∈ dp_idle dp ∧ ∃ created : Time, dp_createdAt dp !! s = Some created ∧
                                            t - created < dp_idleTime dp)) ∧
  log σ' = log σ ++ map EvClose (List.filter stale (dp_idle dp)) ∧
  (∀ s, s ∈ dp_idle dp → dp_createdAt dp !! s = None →
        (s ∉ dp_idle dp') ∧ s ∈ List.filter stale (dp_idle dp)) ∧
  dp_active dp' = dp_active dp ∧
  (∀ s, s ∉ dp_idle dp →
        dp_createdAt dp' !! s = dp_createdAt dp !! s ∧
        s ∉ List.filter stale (dp_idle dp)) ∧
  IdleConnections (pool_stats dp') = Z.of_nat (length (List.filter fresh (dp_idle dp))) ∧
  ActiveConnections (pool_stats dp') = ActiveConnections (pool_stats dp).
Proof.
  intros t fresh stale dp' σ'. subst dp' σ'. rewrite cleanExpired_eq. simpl.
  fold t. fold fresh. fold stale.
  assert (Hfresh : ∀ s, fresh s = true ↔
            ∃ created : Time,
              dp_createdAt dp !! s = Some created ∧
              time_Sub t created < dp_idleTime dp)
    by (intros s; apply fresh_at_true).
  split; [done|]. split.
  { intros s. rewrite elem_of_filter_bool, Hfresh. done. }
  split.
  { intros Httl s. rewrite elem_of_filter_bool, Hfresh.
    split; intros (Hin & c & Hc & Hage); (split; [done|]); exists c; (split; [done|]);
      by apply (time_Sub_lt t c _ Httl). }
  split; [apply close_each_log|]. split.
  { intros s Hin Hnone. split.
    - intros [_ Hf]%elem_of_filter_bool. apply Hfresh in Hf as (c & Hc & _). congruence.
    - apply elem_of_filter_bool. split; [done|].
      unfold stale, stale_at, fresh_at.
      destruct (dp_createdAt dp !! s); [discriminate | done]. }
  split; [done|]. split; [|done].
  intros s Hnin. split.
  - rewrite lookup_delete_all. rewrite decide_False; [done|].
    intros [? _]%elem_of_filter_bool. done.
  - intros [? _]%elem_of_filter_bool. done.
Qed.

End CleanExpiredFacts.

(** ** Invariants of the sub-pools *)

Section PoolInvariants.
Context {E : Env}.

Lemma list_nil_or_snoc (l : list Session) : l = [] ∨ ∃ l' x, l = l' ++ [x].
Proof.
  induction l as [|x l' _] using rev_ind; [by left | right; eauto].
Qed.

(** The three ways through [getSession]. *)
Lemma getSession_cases (dp : DevicePool) (σ : Sys) :
  (∃ l x, dp_idle dp = l ++ [x] ∧
     getSession dp σ
     = ((Ok x, with_sessions dp l ({[x]} ∪ dp_active dp) (dp_createdAt dp)), σ)) ∨
  (dp_idle dp = [] ∧ dp_maxOpen dp ≤ Z.of_nat (size (dp_active dp)) ∧
     getSession dp σ = ((Fail pool_exhausted, dp), σ)) ∨
  (dp_idle dp = [] ∧ Z.of_nat (size (dp_active dp)) < dp_maxOpen dp ∧
     ∃ s err σ1,
       call_open (dev_Driver (dp_device dp)) (dev_Endpoint (dp_device dp)) σ = ((s, err), σ1) ∧
       getSession dp σ
       = match err with
         | Some e => ((Fail e, dp), σ1)
         | None =>
             ((Ok s, with_sessions dp [] ({[s]} ∪ dp_active dp)
                       (<[s := time_now (world σ1)]> (dp_createdAt dp))), σ1)
         end).
Proof.
  destruct (list_nil_or_snoc (dp_idle dp)) as [Hnil|(l & x & Hsnoc)].
  - right.
    destruct (decide (dp_maxOpen dp ≤ Z.of_nat (size (dp_active dp)))) as [Hfull|Hroom].
    + left. eauto using getSession_exhausted.
    + right. split; [done|]. split; [lia|].
      destruct (call_open (dev_Driver (dp_device dp)) (dev_Endpoint (dp_device dp)) σ)
        as [[s err] σ1] eqn:Hopen.
      exists s, err, σ1. split; [done|]. apply getSession_open; [done | lia | done].
  - left. exists l, x. eauto using getSession_reuse.
Qed.

Lemma returnSession_cases (dp : DevicePool) (s : Session) (σ : Sys) :
  (Z.of_nat (length (dp_idle dp)) < dp_maxIdle dp ∧
     returnSession dp s σ
     = (with_sessions dp (dp_idle dp ++ [s]) (dp_active dp ∖ {[s]}) (dp_createdAt dp), σ)) ∨
  (dp_maxIdle dp ≤ Z.of_nat (length (dp_idle dp)) ∧
     returnSession dp s σ
     = (with_sessions dp (dp_idle dp) (dp_active dp ∖ {[s]}) (delete s (dp_createdAt dp)),
        (call_close s σ).2)).
Proof.
  destruct (decide (Z.of_nat (length (dp_idle dp)) < dp_maxIdle dp)).
  - left. eauto using returnSession_room.
  - right. split; [lia|]. apply returnSession_full. lia.
Qed.

Lemma size_add_le (s : Session) (X : gset Session) :
  (size ({[s]} ∪ X) ≤ S (size X))%nat.
Proof.
  rewrite size_union_alt, size_singleton.
  assert (Hsub : X ∖ {[s]} ⊆ X) by set_solver.
  apply subseteq_size in Hsub. lia.
Qed.

Lemma size_add_fresh (s : Session) (X : gset Session) :
  s ∉ X → size ({[s]} ∪ X) = S (size X).
Proof. intros. rewrite size_union by set_solver. by rewrite size_singleton. Qed.

Lemma size_remove (s : Session) (X : gset Session) :
  s ∈ X → S (size (X ∖ {[s]})) = size X.
Proof.
  intros Hin. pose proof (size_difference X {[s]}) as Hd.
  rewrite size_singleton in Hd.
  assert (size X ≠ 0%nat).
  { intros Hz. apply size_empty_inv in Hz. set_solver. }
  rewrite Hd by set_solver. lia.
Qed.

Lemma length_filter_le (f : Session → bool) (l : list Session) :
  (length (List.filter f l) ≤ length l)%nat.
Proof. induction l as [|x l IH]; simpl; [lia|]. destruct (f x); simpl; lia. Qed.

Lemma NoDup_filter_bool (f : Session → bool) (l : list Session) :
  NoDup l → NoDup (List.filter f l).
Proof.
  induction 1 as [|x l Hx _ IH]; simpl; [constructor|].
  destruct (f x); [|done]. constructor; [|done].
  rewrite elem_of_filter_bool. tauto.
Qed.

Lemma well_formed_pool_inv (pool : DevicePool) : well_formed pool → pool_inv pool.
Proof.
  intros (_ & _ & Hdis & Hidle & Htotal). repeat split; [done| |done].
  unfold active_bounded. lia.
Qed.

Lemma getSession_idle_kept_bounded (dp : DevicePool) (σ : Sys) :
  idle_kept_bounded dp → idle_kept_bounded (getSession dp σ).1.2.
Proof.
  unfold idle_kept_bounded, idle_bounded. intros Hb.
  destruct (getSession_cases dp σ)
    as [(l & x & Hidle & ->)|[(Hidle & _ & ->)|(Hidle & _ & s & err & σ1 & _ & ->)]];
    [|done|destruct err; simpl; [done|]]; simpl.
  - rewrite Hidle, length_app in Hb. simpl in Hb. lia.
  - rewrite Hidle in Hb. done.
Qed.

Lemma returnSession_idle_kept_bounded (dp : DevicePool) (s : Session) (σ : Sys) :
  idle_kept_bounded dp → idle_kept_bounded (returnSession dp s σ).1.
Proof.
  unfold idle_kept_bounded, idle_bounded. intros Hb.
  destruct (returnSession_cases dp s σ) as [[Hroom ->]|[Hfull ->]]; simpl; [|done].
  rewrite length_app. simpl. lia.
Qed.

Lemma cleanExpired_idle_kept_bounded (dp : DevicePool) (σ : Sys) :
  idle_kept_bounded dp → idle_kept_bounded (cleanExpired dp σ).1.
Proof.
  unfold idle_kept_bounded, idle_bounded. intros Hb. rewrite cleanExpired_eq. simpl.
  intros Hpos. specialize (Hb Hpos).
  pose proof (length_filter_le
    (fresh_at (time_now (world σ)) (dp_idleTime dp) (dp_createdAt dp)) (dp_idle dp)).
  lia.
Qed.

Lemma getSession_well_formed (dp : DevicePool) (σ : Sys) :
  well_formed dp → well_formed (getSession dp σ).1.2.
Proof.
  unfold well_formed, idle_active_disjoint, idle_bounded.
  intros (Hpos & Hnd & Hdis & Hidle & Htotal).
  destruct (getSession_cases dp σ)
    as [(l & x & Hl & ->)|[(Hl & _ & ->)|(Hl & Hroom & s & err & σ1 & _ & ->)]];
    [|done|destruct err; simpl; [done|]]; simpl.
  - rewrite Hl in Hnd, Hdis, Hidle, Htotal.
    apply NoDup_app in Hnd as (Hndl & Hlx & _).
    rewrite length_app in Hidle, Htotal. simpl in Hidle, Htotal.
    assert (Hx : x ∉ dp_active dp) by (apply Hdis; set_solver).
    rewrite (size_add_fresh _ _ Hx).
    split_and!; [done|done| |lia|lia].
    intros s Hs. specialize (Hlx s Hs). specialize (Hdis s). set_solver.
  - rewrite Hl in Htotal. simpl in Htotal.
    pose proof (size_add_le s (dp_active dp)).
    split_and!; [done|constructor| |lia|lia].
    intros s' Hs'. by apply not_elem_of_nil in Hs'.
Qed.

Lemma returnSession_well_formed (dp : DevicePool) (s : Session) (σ : Sys) :
  s ∈ dp_active dp → well_formed dp → well_formed (returnSession dp s σ).1.
Proof.
  unfold well_formed, idle_active_disjoint, idle_bounded.
  intros Hs (Hpos & Hnd & Hdis & Hidle & Htotal).
  pose proof (size_remove _ _ Hs) as Hsize.
  destruct (returnSession_cases dp s σ) as [[Hroom ->]|[Hfull ->]]; simpl.
  - rewrite length_app. simpl. split_and!; [done| | |lia|lia].
    + apply NoDup_app. split_and!; [done| |apply NoDup_singleton].
      intros x Hx Hx'. apply list_elem_of_singleton in Hx' as ->. by apply (Hdis s).
    + intros x [Hx|Hx]%elem_of_app.
      * specialize (Hdis x Hx). set_solver.
      * apply list_elem_of_singleton in Hx as ->. set_solver.
  - split_and!; [done|done| |lia|lia].
    intros x Hx. specialize (Hdis x Hx). set_solver.
Qed.

Lemma cleanExpired_well_formed (dp : DevicePool) (σ : Sys) :
  well_formed dp → well_formed (cleanExpired dp σ).1.
Proof.
  unfold well_formed, idle_active_disjoint, idle_bounded.
  intros (Hpos & Hnd & Hdis & Hidle & Htotal). rewrite cleanExpired_eq. simpl.
  pose proof (length_filter_le
    (fresh_at (time_now (world σ)) (dp_idleTime dp) (dp_createdAt dp)) (dp_idle dp)).
  split_and!; [done|by apply NoDup_filter_bool| |lia|lia].
  intros s [Hin _]%elem_of_filter_bool. by apply Hdis.
Qed.

End PoolInvariants.

(** ** Reachable pool states *)

Section Reachability.
Context {E : Env}.

Lemma GetSession_eq (p : ConnectionPool) (id : MinerID) (device : Device) (σ : Sys) :
  GetSession p id device σ
  = let pool := match cp_pools p !! id with
                | Some pool => pool
                | None => new_DevicePool p device
                end in
    let σ0 := {| world := world σ; log := log σ ++ [EvGetSession id] |} in
    (((getSession pool σ0).1.1,
      with_pools p (<[id := (getSession pool σ0).1.2]> (cp_pools p))),
     (getSession pool σ0).2).
Proof.
  unfold GetSession, bind, emit, ret. simpl.
  destruct (getSession _ _) as [[r pool'] σ']. done.
Qed.

Lemma ReturnSession_eq (p : ConnectionPool) (id : MinerID) (s : Session) (σ : Sys) :
  ReturnSession p id s σ
  = let σ0 := {| world := world σ; log := log σ ++ [EvReturnSession id s] |} in
    match cp_pools p !! id with
    | Some pool =>
        (with_pools p (<[id := (returnSession pool s σ0).1]> (cp_pools p)),
         (returnSession pool s σ0).2)
    | None => (p, (call_close s σ0).2)
    end.
Proof.
  unfold ReturnSession, bind, emit, ret. simpl.
  destruct (cp_pools p !! id) as [pool|].
  - destruct (returnSession _ _ _) as [pool' σ']. done.
  - destruct (call_close _ _) as [r σ']. done.
Qed.

(** [CleanUp] maps [cleanExpired] over sub-pools: a property of sub-pools
    that [cleanExpired] preserves survives the whole pass. *)
Lemma CleanUp_loop_Forall (P : DevicePool → Prop)
    (snapshot : list (MinerID * DevicePool)) (pools : gmap MinerID DevicePool) (σ : Sys) :
  (∀ pool σ', P pool → P (cleanExpired pool σ').1) →
  Forall (λ entry, P entry.2) snapshot →
  map_Forall (λ _ pool, P pool) pools →
  map_Forall (λ _ pool, P pool) (CleanUp_loop snapshot pools σ).1.
Proof.
  intros Hclean. revert pools σ.
  induction snapshot as [|[id pool] rest IH]; intros pools σ Hsnap Hpools; simpl; [done|].
  apply Forall_cons in Hsnap as [Hpool Hrest].
  unfold bind. destruct (cleanExpired pool σ) as [pool' σ'] eqn:Hc.
  apply IH; [done|]. apply map_Forall_insert_2; [|done].
  specialize (Hclean pool σ Hpool). by rewrite Hc in Hclean.
Qed.

Lemma CleanUp_Forall (P : DevicePool → Prop) (p : ConnectionPool) (σ : Sys) :
  (∀ pool σ', P pool → P (cleanExpired pool σ').1) →
  map_Forall (λ _ pool, P pool) (cp_pools p) →
  map_Forall (λ _ pool, P pool) (cp_pools (CleanUp p σ).1).
Proof.
  intros Hclean Hpools. unfold CleanUp, bind.
  destruct (CleanUp_loop _ _ σ) as [pools' σ'] eqn:Hloop. simpl.
  change pools' with (pools', σ').1. rewrite <- Hloop.
  apply CleanUp_loop_Forall; [done| |done].
  rewrite (range_order_perm _ (map_to_list (cp_pools p))).
  apply Forall_forall. intros [id pool] Hin%elem_of_map_to_list. by apply (Hpools id).
Qed.

Lemma Close_pools (p : ConnectionPool) (σ : Sys) : cp_pools (Close p σ).1 = ∅.
Proof. unfold Close, bind. by destruct (Close_loop _ σ). Qed.

(** Induction over reachable states, one case per pool method: [Q] is
    kept by the limits, [P] by every sub-pool. *)
Lemma reach_invariant (allowed : ConnectionPool → PoolOp → Prop)
    (Q : Z → Z → Prop) (P : DevicePool → Prop) :
  Q 5 10 →
  (∀ p maxIdle maxOpen idleTime,
      allowed p (OpSetLimits maxIdle maxOpen idleTime) → Q maxIdle maxOpen) →
  (∀ p device, Q (cp_maxIdle p) (cp_maxOpen p) → P (new_DevicePool p device)) →
  (∀ pool σ, P pool → P (getSession pool σ).1.2) →
  (∀ p id pool s σ,
      allowed p (OpReturnSession id s) → cp_pools p !! id = Some pool →
      P pool → P (returnSession pool s σ).1) →
  (∀ pool σ, P pool → P (cleanExpired pool σ).1) →
  ∀ p, reach allowed p →
    Q (cp_maxIdle p) (cp_maxOpen p) ∧ map_Forall (λ _ pool, P pool) (cp_pools p).
Proof.
  intros Hinit Hlimits Hnew Hget Hreturn Hclean p Hreach.
  induction Hreach as [|p op σ _ [IHQ IHP] Hallowed].
  - split; [done | apply map_Forall_empty].
  - destruct op as [maxIdle maxOpen idleTime|id device|id s| |]; simpl.
    + split; [by eapply Hlimits | done].
    + unfold bind. destruct (GetSession p id device σ) as [[r p'] σ'] eqn:Hg. simpl.
      rewrite GetSession_eq in Hg. injection Hg as _ <- _. simpl.
      split; [done|]. apply map_Forall_insert_2; [|done]. apply Hget.
      destruct (cp_pools p !! id) as [pool|] eqn:Hpool; [by apply (IHP id) | by apply Hnew].
    + rewrite ReturnSession_eq. simpl.
      destruct (cp_pools p !! id) as [pool|] eqn:Hpool; simpl; [|done].
      split; [done|]. apply map_Forall_insert_2; [|done].
      eapply Hreturn; [done | done | by apply (IHP id)].
    + split; [by unfold CleanUp, bind; destruct (CleanUp_loop _ _ σ) |].
      by apply CleanUp_Forall.
    + split; [by unfold Close, bind; destruct (Close_loop _ σ) |].
      rewrite Close_pools. apply map_Forall_empty.
Qed.

Lemma reach_any_use_idle_kept_bounded (p : ConnectionPool) :
  reach any_use p → map_Forall (λ _ pool, idle_kept_bounded pool) (cp_pools p).
Proof.
  intros Hreach.
  apply (reach_invariant any_use (λ _ _, True) idle_kept_bounded); try done.
  - intros p' device _ Hpos. unfold idle_bounded. simpl in *. done.
  - intros. by apply getSession_idle_kept_bounded.
  - intros. by apply returnSession_idle_kept_bounded.
  - intros. by apply cleanExpired_idle_kept_bounded.
Qed.

Lemma reach_return_active_well_formed (p : ConnectionPool) :
  reach return_active p → map_Forall (λ _ pool, well_formed pool) (cp_pools p).
Proof.
  intros Hreach.
  apply (reach_invariant return_active (λ maxIdle maxOpen, 0 ≤ maxIdle ∧ 0 ≤ maxOpen)
           well_formed); try done.
  - intros p' device [Hi Ho]. unfold well_formed, idle_active_disjoint, idle_bounded.
    cbn [new_DevicePool dp_maxIdle dp_maxOpen dp_idle dp_active length].
    rewrite size_empty. split_and!; [done|constructor| |done|done].
    intros s Hs. by apply not_elem_of_nil in Hs.
  - intros. by apply getSession_well_formed.
  - intros p' id pool s σ Hallowed Hpool Hwf. simpl in Hallowed. rewrite Hpool in Hallowed.
    by apply returnSession_well_formed.
  - intros. by apply cleanExpired_well_formed.
Qed.

(** C2, as amended: in every pool state reached by [SetLimits] with
    non-negative limits, [GetSession], [CleanUp], [Close] and
    [ReturnSession] of a session that the device's sub-pool has in its
    active set at that moment (or whose sub-pool is gone), every sub-pool
    has at most [maxIdle] idle sessions, at most [maxOpen] active
    sessions, and no session both idle and active. *)
Theorem pool_invariants_when_returns_are_active
    (p : ConnectionPool) (id : MinerID) (pool : DevicePool) :
  reach return_active p →
  cp_pools p !! id = Some pool →
  pool_inv pool.
Proof.
  intros Hreach Hpool. apply well_formed_pool_inv.
  by apply (reach_return_active_well_formed p Hreach id).
Qed.

End Reachability.

Lemma pool_invariants_when_returns_are_active_witness :
  ∃ pool,
    cp_pools
      (apply_op (OpReturnSession "x" 1%nat)
         (apply_op (OpGetSession "x" (sim_device "x")) NewConnectionPool one_open).1
         one_open).1 !! "x" = Some pool ∧
    pool_inv pool.
Proof.
  eexists. split; [vm_compute; reflexivity|].
  eapply (pool_invariants_when_returns_are_active _ "x").
  - apply (reach_step return_active
             (apply_op (OpGetSession "x" (sim_device "x")) NewConnectionPool one_open).1
             (OpReturnSession "x" 1%nat) one_open).
    + apply (reach_step return_active NewConnectionPool
               (OpGetSession "x" (sim_device "x")) one_open);
        [apply reach_new | exact I].
    + vm_compute. reflexivity.
  - vm_compute. reflexivity.
Defined.

(** The history [history_return_after_Close] hands back each session at
    most once, and once only sessions that were checked out, yet leaves
    the sub-pool of device x with two active sessions under [maxOpen = 1]. *)
Lemma pool_invariants_fail_after_Close :
  ∃ p out σ pool,
    run_history history_return_after_Close NewConnectionPool [] two_opens = Some (p, out, σ) ∧
    cp_pools p !! "x" = Some pool ∧
    dp_maxOpen pool = 1 ∧
    size (dp_active pool) = 2%nat ∧
    ¬ pool_inv pool.
Proof.
  eexists _, _, _, _. split; [vm_compute; reflexivity|].
  split; [vm_compute; reflexivity|].
  split; [reflexivity|]. split; [vm_compute; reflexivity|].
  intros (_ & Hactive & _). vm_compute in Hactive. by apply Hactive.
Qed.

(** ** Reuse and exhaustion *)

Section PoolReuse.
Context {E : Env}.

(** After a successful [getSession] on a sub-pool whose idle list is within
    a limit of at least one, the idle list has room for one more. *)
Lemma getSession_leaves_room (pool : DevicePool) (σ : Sys) (s : Session) :
  idle_bounded pool →
  1 ≤ dp_maxIdle pool →
  (getSession pool σ).1.1 = Ok s →
  Z.of_nat (length (dp_idle (getSession pool σ).1.2)) < dp_maxIdle (getSession pool σ).1.2.
Proof.
  unfold idle_bounded. intros Hb Hmax.
  destruct (getSession_cases pool σ)
    as [(l & x & Hl & ->)|[(Hl & _ & ->)|(Hl & _ & s' & err & σ1 & _ & ->)]];
    [|done|destruct err; [done|]]; simpl; intros _.
  - rewrite Hl, length_app in Hb. simpl in Hb. lia.
  - lia.
Qed.

Lemma ReturnSession_then_GetSession (p : ConnectionPool) (id : MinerID) (pool : DevicePool)
    (s : Session) (device : Device) (σa σc : Sys) :
  cp_pools p !! id = Some pool →
  Z.of_nat (length (dp_idle pool)) < dp_maxIdle pool →
  ∃ p3,
    GetSession (ReturnSession p id s σa).1 id device σc
    = ((Ok s, p3), {| world := world σc; log := log σc ++ [EvGetSession id] |}).
Proof.
  intros Hpool Hroom. rewrite ReturnSession_eq. simpl. rewrite Hpool.
  rewrite returnSession_room by done. simpl.
  rewrite GetSession_eq. simpl. rewrite lookup_insert_eq.
  erewrite getSession_reuse by reflexivity. simpl. eauto.
Qed.

(** C6: in a pool state reached by whatever calls, for a device whose
    sub-pool has [maxIdle ≥ 1]: when [GetSession] yields [s] and [s] is
    handed back with [ReturnSession], the next [GetSession] for that device
    yields [s] again and calls nothing but itself, in particular not
    [Open]; and when the idle list is [l ++ [x]], [x] being the entry
    pushed last, [GetSession] yields [x], leaves [l], and calls no
    [Open]. *)
Theorem GetSession_reuses_returned_session
    (p p1 : ConnectionPool) (id : MinerID) (device device' : Device)
    (s : Session) (σ σ1 σa σc : Sys) :
  reach any_use p →
  1 ≤ sub_maxIdle p id →
  GetSession p id device σ = ((Ok s, p1), σ1) →
  (∃ p3,
     GetSession (ReturnSession p1 id s σa).1 id device' σc
     = ((Ok s, p3), {| world := world σc; log := log σc ++ [EvGetSession id] |})) ∧
  (∀ pool l x,
     cp_pools p !! id = Some pool → dp_idle pool = l ++ [x] →
     s = x ∧
     σ1 = {| world := world σ; log := log σ ++ [EvGetSession id] |} ∧
     dp_idle <$> cp_pools p1 !! id = Some l).
Proof.
  intros Hreach Hmax Hget. rewrite GetSession_eq in Hget. simpl in Hget.
  injection Hget as Hr <- <-. split.
  - set (pool0 := match cp_pools p !! id with
                  | Some pool => pool
                  | None => new_DevicePool p device
                  end) in *.
    assert (Hpool0 : idle_bounded pool0 ∧ 1 ≤ dp_maxIdle pool0).
    { unfold sub_maxIdle in Hmax. subst pool0.
      destruct (cp_pools p !! id) as [pool|] eqn:Hpool.
      - split; [|done].
        apply (reach_any_use_idle_kept_bounded p Hreach id pool Hpool). lia.
      - split; [|done]. unfold idle_bounded. simpl. lia. }
    destruct Hpool0 as [Hb Hmax0].
    eapply ReturnSession_then_GetSession.
    + simpl. apply lookup_insert_eq.
    + by apply (getSession_leaves_room _ _ s).
  - intros pool l x Hpool Hl. rewrite Hpool in Hr |- *.
    rewrite (getSession_reuse pool l x _ Hl) in Hr |- *. simpl in *.
    injection Hr as <-. rewrite lookup_insert_eq. done.
Qed.

Lemma with_pools_insert_id (p : ConnectionPool) (id : MinerID) (pool : DevicePool) :
  cp_pools p !! id = Some pool → with_pools p (<[id := pool]> (cp_pools p)) = p.
Proof. intros Hpool. rewrite insert_id by done. by destruct p. Qed.

Lemma getSession_never_idle (pool : DevicePool) (σ : Sys) :
  never_idle pool → never_idle (getSession pool σ).1.2.
Proof.
  unfold never_idle. intros Hinv.
  destruct (getSession_cases pool σ)
    as [(l & x & Hl & ->)|[(Hl & _ & ->)|(Hl & Hroom & s & err & σ1 & _ & ->)]];
    [|done|destruct err; [done|]]; simpl; intros Hmax.
  - destruct (Hinv Hmax) as [Hnil _]. rewrite Hnil in Hl. by destruct l.
  - split; [done|]. pose proof (size_add_le s (dp_active pool)). lia.
Qed.

Lemma returnSession_never_idle (pool : DevicePool) (s : Session) (σ : Sys) :
  never_idle pool → never_idle (returnSession pool s σ).1.
Proof.
  unfold never_idle. intros Hinv.
  assert (Hsub : (size (dp_active pool ∖ {[s]}) ≤ size (dp_active pool))%nat)
    by (apply subseteq_size; set_solver).
  destruct (returnSession_cases pool s σ) as [[Hroom ->]|[_ ->]]; simpl; intros Hmax.
  - lia.
  - destruct (Hinv Hmax) as [Hnil Hsize]. split; [done | lia].
Qed.

Lemma cleanExpired_never_idle (pool : DevicePool) (σ : Sys) :
  never_idle pool → never_idle (cleanExpired pool σ).1.
Proof.
  unfold never_idle. intros Hinv. rewrite cleanExpired_eq. simpl. intros Hmax.
  destruct (Hinv Hmax) as [Hnil Hsize]. rewrite Hnil. done.
Qed.

Lemma reach_any_use_never_idle (p : ConnectionPool) :
  reach any_use p → map_Forall (λ _ pool, never_idle pool) (cp_pools p).
Proof.
  intros Hreach.
  apply (reach_invariant any_use (λ _ _, True) never_idle); try done.
  - intros p' device _ _.
    cbn [new_DevicePool dp_idle dp_active dp_maxOpen]. rewrite size_empty. split; [done|lia].
  - intros. by apply getSession_never_idle.
  - intros. by apply returnSession_never_idle.
  - intros. by apply cleanExpired_never_idle.
Qed.

(** C7: when the idle list of a device's sub-pool is empty and
    [len(active) ≥ maxOpen], [GetSession] returns the pool-exhausted
    [DeviceError] at once, leaving pool and world as they were and calling
    no [Open].  After a session is handed back, the next [GetSession] is
    no longer refused: when [maxIdle ≥ 1] it yields that session, without
    any [Open]; when [maxIdle ≤ 0] the session handed back has been closed
    and not kept, the sub-pool, which in any reachable state was exactly
    full, has room again, and the next [GetSession] calls [Open] and
    returns what [Open] returns.  So it succeeds whenever [Open], where it
    has to be called, does. *)
Theorem GetSession_exhausted_fails_fast
    (p : ConnectionPool) (id : MinerID) (pool : DevicePool) (device : Device) (σ : Sys) :
  cp_pools p !! id = Some pool →
  dp_idle pool = [] →
  dp_maxOpen pool ≤ Z.of_nat (size (dp_active pool)) →
  GetSession p id device σ
  = ((Fail pool_exhausted, p), {| world := world σ; log := log σ ++ [EvGetSession id] |}) ∧
  is_DeviceError pool_exhausted ∧
  (∀ s σa σc device',
     1 ≤ dp_maxIdle pool →
     ∃ p3,
       GetSession (ReturnSession p id s σa).1 id device' σc
       = ((Ok s, p3), {| world := world σc; log := log σc ++ [EvGetSession id] |})) ∧
  (∀ s σa σc device',
     dp_maxIdle pool ≤ 0 →
     s ∈ dp_active pool →
     Z.of_nat (size (dp_active pool)) = dp_maxOpen pool →
     let handed_back := ReturnSession p id s σa in
     let opened :=
       call_open (dev_Driver (dp_device pool)) (dev_Endpoint (dp_device pool))
                 {| world := world σc; log := log σc ++ [EvGetSession id] |} in
     log handed_back.2 = log σa ++ [EvReturnSession id s; EvClose s] ∧
     dp_idle <$> cp_pools handed_back.1 !! id = Some [] ∧
     (GetSession handed_back.1 id device' σc).1.1
     = match opened.1.2 with
       | Some e => Fail e
       | None => Ok opened.1.1
       end ∧
     (GetSession handed_back.1 id device' σc).2 = opened.2 ∧
     log opened.2
     = log σc ++ [EvGetSession id;
                  EvOpen (dev_Driver (dp_device pool)) (dev_Endpoint (dp_device pool))]) ∧
  (reach any_use p → dp_maxIdle pool ≤ 0 →
   ∀ s, s ∈ dp_active pool → Z.of_nat (size (dp_active pool)) = dp_maxOpen pool) ∧
  (∀ s σa σc device',
     reach any_use p →
     s ∈ dp_active pool →
     (dp_maxIdle pool ≤ 0 →
      (call_open (dev_Driver (dp_device pool)) (dev_Endpoint (dp_device pool))
                 {| world := world σc; log := log σc ++ [EvGetSession id] |}).1.2 = None) →
     ∃ s', (GetSession (ReturnSession p id s σa).1 id device' σc).1.1 = Ok s').
Proof.
  intros Hpool Hidle Hfull.
  assert (Hreuse : ∀ s σa σc device',
     1 ≤ dp_maxIdle pool →
     ∃ p3,
       GetSession (ReturnSession p id s σa).1 id device' σc
       = ((Ok s, p3), {| world := world σc; log := log σc ++ [EvGetSession id] |})).
  { intros s σa σc device' Hmax.
    apply ReturnSession_then_GetSession with (pool := pool); [done|].
    rewrite Hidle. simpl. lia. }
  assert (Hreopen : ∀ s σa σc device',
     dp_maxIdle pool ≤ 0 →
     s ∈ dp_active pool →
     Z.of_nat (size (dp_active pool)) = dp_maxOpen pool →
     let handed_back := ReturnSession p id s σa in
     let opened :=
       call_open (dev_Driver (dp_device pool)) (dev_Endpoint (dp_device pool))
                 {| world := world σc; log := log σc ++ [EvGetSession id] |} in
     log handed_back.2 = log σa ++ [EvReturnSession id s; EvClose s] ∧
     dp_idle <$> cp_pools handed_back.1 !! id = Some [] ∧
     (GetSession handed_back.1 id device' σc).1.1
     = match opened.1.2 with
       | Some e => Fail e
       | None => Ok opened.1.1
       end ∧
     (GetSession handed_back.1 id device' σc).2 = opened.2 ∧
     log opened.2
     = log σc ++ [EvGetSession id;
                  EvOpen (dev_Driver (dp_device pool)) (dev_Endpoint (dp_device pool))]).
  { intros s σa σc device' Hmax Hs Hsize handed_back opened.
    subst handed_back. rewrite ReturnSession_eq. cbv zeta. rewrite Hpool.
    rewrite returnSession_full by (rewrite Hidle; simpl; lia).
    cbn [fst snd cp_pools with_pools]. rewrite lookup_insert_eq, call_close_log.
    cbn [log fmap option_fmap option_map with_sessions dp_idle].
    split; [by rewrite <- app_assoc|]. split; [by rewrite Hidle|].
    assert (Hlog : log opened.2
              = log σc ++ [EvGetSession id;
                   EvOpen (dev_Driver (dp_device pool)) (dev_Endpoint (dp_device pool))]).
    { subst opened. rewrite call_open_log. simpl. by rewrite <- app_assoc. }
    rewrite GetSession_eq. cbv zeta. cbn [cp_pools with_pools]. rewrite lookup_insert_eq.
    destruct opened as [[s' err] σo] eqn:Hopen. subst opened.
    erewrite getSession_open; [| |by apply size_remove in Hs; simpl; lia|exact Hopen];
      [|done].
    split_and!; [by destruct err|by destruct err|done]. }
  assert (Hexact : reach any_use p → dp_maxIdle pool ≤ 0 →
     ∀ s, s ∈ dp_active pool → Z.of_nat (size (dp_active pool)) = dp_maxOpen pool).
  { intros Hreach Hmax s Hs.
    destruct (reach_any_use_never_idle p Hreach id pool Hpool Hmax) as [_ Hsize].
    apply size_remove in Hs. lia. }
  split_and!; [| reflexivity | exact Hreuse | exact Hreopen | exact Hexact |].
  - rewrite GetSession_eq. simpl. rewrite Hpool.
    rewrite getSession_exhausted by done. simpl.
    by rewrite with_pools_insert_id.
  - intros s σa σc device' Hreach Hs Hopen.
    destruct (decide (1 ≤ dp_maxIdle pool)) as [Hmax|Hmax].
    + destruct (Hreuse s σa σc device' Hmax) as [p3 ->]. by exists s.
    + assert (Hmax' : dp_maxIdle pool ≤ 0) by lia.
      destruct (Hreopen s σa σc device' Hmax' Hs (Hexact Hreach Hmax' s Hs))
        as (_ & _ & -> & _).
      rewrite (Hopen Hmax'). eauto.
Qed.

End PoolReuse.

Lemma GetSession_reuses_returned_session_witness :
  ∃ p1 σ1 p3,
    GetSession NewConnectionPool "x" (sim_device "x") one_open = ((Ok 1%nat, p1), σ1) ∧
    GetSession (ReturnSession p1 "x" 1%nat σ1).1 "x" (sim_device "x") σ1
    = ((Ok 1%nat, p3), {| world := world σ1; log := log σ1 ++ [EvGetSession "x"] |}).
Proof.
  assert (Hget : ∃ p1 σ1,
            GetSession NewConnectionPool "x" (sim_device "x") one_open = ((Ok 1%nat, p1), σ1)).
  { eexists _, _. vm_compute. reflexivity. }
  destruct Hget as (p1 & σ1 & Hget).
  destruct (GetSession_reuses_returned_session
              NewConnectionPool p1 "x" (sim_device "x") (sim_device "x") 1%nat
              one_open σ1 σ1 σ1 (reach_new _)) as [[p3 Hagain] _].
  - vm_compute. discriminate.
  - exact Hget.
  - exists p1, σ1, p3. split; [exact Hget | exact Hagain].
Defined.

Lemma GetSession_exhausted_fails_fast_witness :
  exhausted_run 1 = Some (exhausted_pool 1, [("x", 1%nat)], exhausted_sys 1) ∧
  GetSession (exhausted_pool 1) "x" (sim_device "x") (exhausted_sys 1)
  = ((Fail pool_exhausted, exhausted_pool 1),
     {| world := world (exhausted_sys 1);
        log := log (exhausted_sys 1) ++ [EvGetSession "x"] |}) ∧
  (∃ p3,
     GetSession (ReturnSession (exhausted_pool 1) "x" 1%nat (exhausted_sys 1)).1
                "x" (sim_device "x") (exhausted_sys 1)
     = ((Ok 1%nat, p3),
        {| world := world (exhausted_sys 1);
           log := log (exhausted_sys 1) ++ [EvGetSession "x"] |})) ∧
  log (ReturnSession (exhausted_pool 0) "x" 1%nat (exhausted_sys 0)).2
  = log (exhausted_sys 0) ++ [EvReturnSession "x" 1%nat; EvClose 1%nat] ∧
  ∃ s',
    (GetSession (ReturnSession (exhausted_pool 0) "x" 1%nat (exhausted_sys 0)).1
                "x" (sim_device "x") (sim_sys 5000000000 [(2%nat, None)])).1.1 = Ok s'.
Proof.
  destruct (GetSession_exhausted_fails_fast
              (exhausted_pool 1) "x" (exhausted_sub_pool 1) (sim_device "x") (exhausted_sys 1))
    as (Hfail & _ & Hthen & _).
  { vm_compute. reflexivity. }
  { reflexivity. }
  { vm_compute. discriminate. }
  destruct (GetSession_exhausted_fails_fast
              (exhausted_pool 0) "x" (exhausted_sub_pool 0) (sim_device "x") (exhausted_sys 0))
    as (_ & _ & _ & Hclosed & Hexact & Hsucceeds).
  { vm_compute. reflexivity. }
  { reflexivity. }
  { vm_compute. discriminate. }
  assert (Hreach : reach any_use (exhausted_pool 0)).
  { apply (reach_step any_use
             (apply_op (OpSetLimits 0 1 Minute) NewConnectionPool one_open).1
             (OpGetSession "x" (sim_device "x")) one_open); [|exact I].
    apply (reach_step any_use NewConnectionPool (OpSetLimits 0 1 Minute) one_open);
      [apply reach_new | exact I]. }
  assert (Hactive : 1%nat ∈ dp_active (exhausted_sub_pool 0)) by (vm_compute; reflexivity).
  assert (Hzero : dp_maxIdle (exhausted_sub_pool 0) ≤ 0) by (vm_compute; discriminate).
  split; [vm_compute; reflexivity|]. split; [exact Hfail|].
  split; [apply Hthen; vm_compute; discriminate|].
  split.
  - apply (Hclosed 1%nat (exhausted_sys 0) (exhausted_sys 0) (sim_device "x") Hzero Hactive
             (Hexact Hreach Hzero 1%nat Hactive)).
  - apply (Hsucceeds 1%nat (exhausted_sys 0) (sim_sys 5000000000 [(2%nat, None)])
             (sim_device "x") Hreach Hactive).
    intros _. vm_compute. reflexivity.
Defined.

(** ** Creation timestamps *)

Section CreationTime.
Context {E : Env}.

Lemma closeAll_pool (dp : DevicePool) (σ : Sys) :
  (closeAll dp σ).1 = with_sessions dp [] ∅ ∅.
Proof.
  unfold closeAll, bind.
  destruct (close_each (dp_idle dp) σ) as [u σ1].
  by destruct (close_each _ σ1).
Qed.

Lemma quiet_createdAt (s : Session) (dp dp' : DevicePool) :
  quiet s dp dp' →
  (dp_createdAt dp' !! s = dp_createdAt dp !! s ∨ dp_createdAt dp' !! s = None) ∧
  dp_idleTime dp' = dp_idleTime dp.
Proof.
  destruct 1 as [dp σ Hother|dp s' σ|dp σ|dp σ].
  - destruct (getSession_cases dp σ)
      as [(l & x & Hl & Hg)|[(Hl & _ & Hg)|(Hl & _ & s' & err & σ1 & _ & Hg)]].
    + rewrite Hg. simpl. auto.
    + rewrite Hg. simpl. auto.
    + specialize (Hother Hl). rewrite Hg in Hother |- *.
      destruct err; simpl in *; [auto|]. split; [|done]. left.
      apply lookup_insert_ne. congruence.
  - destruct (returnSession_cases dp s' σ) as [[_ ->]|[_ ->]]; simpl; [auto|].
    split; [|done]. destruct (decide (s' = s)) as [->|Hne].
    + right. apply lookup_delete_eq.
    + left. by apply lookup_delete_ne.
  - rewrite cleanExpired_eq. simpl. split; [|done]. rewrite lookup_delete_all.
    destruct (decide _); auto.
  - rewrite closeAll_pool. simpl. split; [|done]. right. apply lookup_empty.
Qed.

Lemma rtc_quiet_createdAt (s : Session) (dp dp' : DevicePool) :
  rtc (quiet s) dp dp' →
  (dp_createdAt dp' !! s = dp_createdAt dp !! s ∨ dp_createdAt dp' !! s = None) ∧
  dp_idleTime dp' = dp_idleTime dp.
Proof.
  induction 1 as [dp|dp dp1 dp' Hstep _ [IHc IHt]]; [auto|].
  destruct (quiet_createdAt _ _ _ Hstep) as [Hc Ht]. split; [|congruence].
  destruct IHc as [->| ->]; [|auto]. destruct Hc as [->|Hnone]; auto.
Qed.

(** C10, as amended: the creation time of a session [s] is written by
    [getSession] each time [Driver.Open] has just returned [s], as the
    clock reading at that moment, and by nothing else: it is written once
    when the driver never returns [s] again, and overwritten when it
    does.  [getSession] reusing an idle session leaves all creation times
    as they are, and every call that is not an [Open] returning [s] keeps
    the time recorded for [s] or erases it.  Hence, however often [s] was
    reused or handed back since, [cleanExpired] removes [s] from the idle
    list once the time since the latest [Open] that returned it, measured
    by [Time.Sub], has reached the time to live, and a session it keeps is
    younger than that. *)
Theorem createdAt_written_only_at_Open (s : Session) :
  (∀ dp σ,
     dp_idle dp = [] → (getSession dp σ).1.1 = Ok s →
     dp_createdAt (getSession dp σ).1.2 !! s = Some (time_now (world (getSession dp σ).2)) ∧
     log (getSession dp σ).2
     = log σ ++ [EvOpen (dev_Driver (dp_device dp)) (dev_Endpoint (dp_device dp))]) ∧
  (∀ dp σ,
     dp_idle dp ≠ [] →
     dp_createdAt (getSession dp σ).1.2 = dp_createdAt dp ∧ (getSession dp σ).2 = σ) ∧
  (∀ dp σ,
     (dp_idle dp = [] ∧ (getSession dp σ).1.1 = Ok s) ∨ quiet s dp (getSession dp σ).1.2) ∧
  (∀ dp dp',
     rtc (quiet s) dp dp' →
     dp_createdAt dp' !! s = dp_createdAt dp !! s ∨ dp_createdAt dp' !! s = None) ∧
  (∀ dp0 σ0 dp σ,
     dp_idle dp0 = [] → (getSession dp0 σ0).1.1 = Ok s →
     rtc (quiet s) (getSession dp0 σ0).1.2 dp →
     let opened_at := time_now (world (getSession dp0 σ0).2) in
     let t := time_now (world σ) in
     dp_idleTime dp = dp_idleTime dp0 ∧
     (dp_idleTime dp ≤ time_Sub t opened_at → s ∉ dp_idle (cleanExpired dp σ).1) ∧
     (dp_idleTime dp ≤ MaxDuration → dp_idleTime dp ≤ t - opened_at →
      s ∉ dp_idle (cleanExpired dp σ).1) ∧
     (s ∈ dp_idle (cleanExpired dp σ).1 → time_Sub t opened_at < dp_idleTime dp) ∧
     (s ∈ dp_idle dp → is_Some (dp_createdAt dp !! s) →
      time_Sub t opened_at < dp_idleTime dp →
      s ∈ dp_idle (cleanExpired dp σ).1)).
Proof.
  assert (Hopen : ∀ dp σ,
     dp_idle dp = [] → (getSession dp σ).1.1 = Ok s →
     dp_createdAt (getSession dp σ).1.2 !! s = Some (time_now (world (getSession dp σ).2)) ∧
     log (getSession dp σ).2
     = log σ ++ [EvOpen (dev_Driver (dp_device dp)) (dev_Endpoint (dp_device dp))] ∧
     dp_idleTime (getSession dp σ).1.2 = dp_idleTime dp).
  { intros dp σ Hidle.
    destruct (getSession_cases dp σ)
      as [(l & x & Hl & Hg)|[(Hl & _ & Hg)|(Hl & _ & s' & err & σ1 & Hopen & Hg)]].
    - rewrite Hidle in Hl. by destruct l.
    - by rewrite Hg.
    - rewrite Hg. destruct err; simpl; [done|]. intros [= ->].
      split; [apply lookup_insert_eq|]. split; [|done].
      unfold call_open in Hopen.
      destruct (driver_open _ _ (world σ)) as [r w]. by injection Hopen as _ <-. }
  split_and!.
  - intros dp σ Hidle Hs. destruct (Hopen dp σ Hidle Hs) as (? & ? & _). done.
  - intros dp σ Hidle.
    destruct (getSession_cases dp σ)
      as [(l & x & Hl & ->)|[(Hl & _ & _)|(Hl & _ & _)]]; done.
  - intros dp σ. destruct (dp_idle dp) as [|x l] eqn:Hidle.
    + destruct (getSession dp σ).1.1 as [s'|e] eqn:Hr.
      * destruct (decide (s' = s)) as [->|Hne]; [by left|].
        right. apply quiet_getSession. intros _. rewrite Hr. congruence.
      * right. apply quiet_getSession. intros _. by rewrite Hr.
    + right. apply quiet_getSession. intros Hnil. congruence.
  - intros dp dp' Hsteps. by apply rtc_quiet_createdAt.
  - intros dp0 σ0 dp σ Hidle Hs Hsteps opened_at t.
    destruct (Hopen dp0 σ0 Hidle Hs) as (Hrec & _ & Httl0).
    destruct (rtc_quiet_createdAt _ _ _ Hsteps) as [Hc Httl].
    fold opened_at in Hrec. rewrite Hrec in Hc.
    pose proof (cleanExpired_idle_iff dp σ s) as Hkept. fold t in Hkept.
    assert (Hyoung : s ∈ dp_idle (cleanExpired dp σ).1 →
                     time_Sub t opened_at < dp_idleTime dp).
    { intros (_ & c & Hrec' & Hage)%Hkept. destruct Hc as [Hc|Hc]; [|congruence].
      assert (c = opened_at) as <- by congruence. done. }
    split_and!; [congruence| | |done|].
    + intros Hold Hin. apply Hyoung in Hin. lia.
    + intros Hmax Hold Hin. apply Hyoung in Hin.
      pose proof (time_Sub_ge t opened_at _ Hmax Hold). lia.
    + intros Hin [c Hrec'] Hage. apply Hkept. split; [done|]. exists c. split; [done|].
      destruct Hc as [Hc|Hc]; [|congruence].
      assert (c = opened_at) as -> by congruence. done.
Qed.

End CreationTime.

Lemma createdAt_written_only_at_Open_witness :
  dp_createdAt opened_pool !! 1%nat = Some 1000000000 ∧
  dp_createdAt returned_again_pool !! 1%nat = Some 1000000000 ∧
  dp_idle returned_again_pool = [1%nat] ∧
  1%nat ∉ dp_idle (cleanExpired returned_again_pool (sim_sys 61000000000 [])).1.
Proof.
  destruct (createdAt_written_only_at_Open 1%nat) as (Hopen & _ & _ & _ & Hlife).
  destruct (Hopen fresh_sub_pool one_open) as [Hrec _];
    [reflexivity | vm_compute; reflexivity |].
  destruct (Hlife fresh_sub_pool one_open returned_again_pool (sim_sys 61000000000 []))
    as (_ & Hevict & _).
  - reflexivity.
  - vm_compute. reflexivity.
  - eapply rtc_l; [apply (quiet_returnSession 1%nat opened_pool 1%nat (sim_sys 30000000000 []))|].
    eapply rtc_l; [apply (quiet_getSession 1%nat returned_pool (sim_sys 40000000000 []))|].
    { intros Hnil. vm_compute in Hnil. discriminate. }
    eapply rtc_l; [apply (quiet_returnSession 1%nat reused_pool 1%nat (sim_sys 60999999999 []))|].
    apply rtc_refl.
  - split; [exact Hrec|]. split; [vm_compute; reflexivity|].
    split; [vm_compute; reflexivity|].
    apply Hevict. vm_compute. discriminate.
Defined.

(** A driver whose [Open] returns session 1 a second time while it is
    still checked out: the creation time recorded at the first [Open],
    second 1, is overwritten at the second, second 51; handed back and
    swept at second 62, a full minute and more after its first [Open],
    the session is kept. *)
Lemma createdAt_rewritten_when_Open_returns_again :
  (getSession fresh_sub_pool one_open).1.1 = Ok 1%nat ∧
  dp_createdAt opened_pool !! 1%nat = Some 1000000000 ∧
  (getSession opened_pool (sim_sys 50000000000 [(1%nat, None)])).1.1 = Ok 1%nat ∧
  dp_createdAt reopened_pool !! 1%nat = Some 51000000000 ∧
  dp_idle reopened_idle_pool = [1%nat] ∧
  dp_idleTime reopened_idle_pool ≤ 62000000000 - 1000000000 ∧
  dp_idle (cleanExpired reopened_idle_pool (sim_sys 62000000000 [])).1 = [1%nat].
Proof.
  split_and!; try (vm_compute; reflexivity). vm_compute. discriminate.
Qed.

(** ** Manager *)

Section ManagerFacts.
Context {E : Env}.

(** [GetSession] calls neither the callback nor [ReturnSession]. *)
Lemma GetSession_log (p : ConnectionPool) (id : MinerID) (device : Device) (σ : Sys) :
  ∃ calls,
    log (GetSession p id device σ).2 = log σ ++ EvGetSession id :: calls ∧
    List.filter is_callback calls = [] ∧ List.filter is_return calls = [].
Proof.
  rewrite GetSession_eq. simpl.
  set (pool := match cp_pools p !! id with
               | Some pool => pool
               | None => new_DevicePool p device
               end).
  set (σ0 := {| world := world σ; log := log σ ++ [EvGetSession id] |}).
  destruct (getSession_cases pool σ0)
    as [(l & x & _ & ->)|[(_ & _ & ->)|(_ & _ & s & err & σ1 & Hopen & ->)]].
  - by exists [].
  - by exists [].
  - exists [EvOpen (dev_Driver (dp_device pool)) (dev_Endpoint (dp_device pool))].
    split; [|done].
    assert (Hlog : log σ1 = log σ0 ++ [EvOpen (dev_Driver (dp_device pool))
                                              (dev_Endpoint (dp_device pool))]).
    { rewrite <- call_open_log. by rewrite Hopen. }
    destruct err; simpl; rewrite Hlog; simpl; by rewrite <- ?app_assoc.
Qed.

(** [ReturnSession] is logged once and calls nothing but, possibly, [Close]. *)
Lemma ReturnSession_log (p : ConnectionPool) (id : MinerID) (s : Session) (σ : Sys) :
  ∃ calls,
    log (ReturnSession p id s σ).2 = log σ ++ EvReturnSession id s :: calls ∧
    List.filter is_callback calls = [] ∧ List.filter is_return calls = [].
Proof.
  rewrite ReturnSession_eq. simpl.
  destruct (cp_pools p !! id) as [pool|]; simpl.
  - destruct (returnSession_cases pool s
                {| world := world σ; log := log σ ++ [EvReturnSession id s] |})
      as [[_ ->]|[_ ->]]; simpl.
    + by exists [].
    + exists [EvClose s]. rewrite call_close_log. simpl. by rewrite <- ?app_assoc.
  - exists [EvClose s]. rewrite call_close_log. simpl. by rewrite <- ?app_assoc.
Qed.

(** C1: [WithSession] on an id that is not in the device table returns
    [ErrNotFound] and does nothing else: no callback, no pool call, pool
    unchanged.  For a registered id, when [GetSession] fails its error is
    the result, and neither the callback nor [ReturnSession] is called;
    when it yields a session, the callback is called exactly once, on that
    session, [ReturnSession] is called exactly once, with that session and
    after the callback, whatever the callback returned, and the result is
    the callback's. *)
Theorem WithSession_protocol (m : Manager) (id : MinerID) (fn : Callback) (σ : Sys) :
  (m_dev m !! id = None →
     WithSession m id fn σ = ((Some ErrNotFound, m), σ)) ∧
  (∀ d e pool1 σ1,
     m_dev m !! id = Some d →
     GetSession (m_pool m) id d σ = ((Fail e, pool1), σ1) →
     WithSession m id fn σ = ((Some e, with_pool m pool1), σ1) ∧
     ∃ calls, log σ1 = log σ ++ calls ∧
              List.filter is_callback calls = [] ∧ List.filter is_return calls = []) ∧
  (∀ d sess pool1 σ1,
     m_dev m !! id = Some d →
     GetSession (m_pool m) id d σ = ((Ok sess, pool1), σ1) →
     let ran := fn sess (with_pool m pool1) (world σ1) in
     let res := ran.1.1 in
     let m2 := ran.1.2 in
     let σ2 := {| world := ran.2; log := log σ1 ++ [EvCallback sess] |} in
     let handed_back := ReturnSession (m_pool m2) id sess σ2 in
     WithSession m id fn σ = ((res, with_pool m2 handed_back.1), handed_back.2) ∧
     ∃ calls, log handed_back.2 = log σ ++ calls ∧
              List.filter is_callback calls = [EvCallback sess] ∧
              List.filter is_return calls = [EvReturnSession id sess]).
Proof.
  split_and!.
  - intros Hnone. unfold WithSession. by rewrite Hnone.
  - intros d e pool1 σ1 Hd Hget. split.
    + unfold WithSession, bind. by rewrite Hd, Hget.
    + destruct (GetSession_log (m_pool m) id d σ) as (calls & Hlog & Hcb & Hret).
      rewrite Hget in Hlog. simpl in Hlog. exists (EvGetSession id :: calls).
      simpl. by rewrite Hcb, Hret.
  - intros d sess pool1 σ1 Hd Hget ran res m2 σ2 handed_back. split.
    + unfold WithSession, bind. rewrite Hd, Hget. unfold call_fn.
      fold ran. destruct ran as [[res' m2'] w2] eqn:Hran. simpl in *.
      subst res m2 σ2. simpl. fold handed_back. by destruct handed_back.
    + destruct (GetSession_log (m_pool m) id d σ) as (calls1 & Hlog1 & Hcb1 & Hret1).
      rewrite Hget in Hlog1. simpl in Hlog1.
      destruct (ReturnSession_log (m_pool m2) id sess σ2) as (calls2 & Hlog2 & Hcb2 & Hret2).
      fold handed_back in Hlog2.
      exists (EvGetSession id :: calls1 ++ EvCallback sess :: EvReturnSession id sess :: calls2).
      split_and!.
      * rewrite Hlog2. subst σ2. simpl. rewrite Hlog1.
        by rewrite <- ?app_assoc.
      * simpl. rewrite List.filter_app. simpl. by rewrite Hcb1, Hcb2.
      * simpl. rewrite List.filter_app. simpl. by rewrite Hret1, Hret2.
Qed.

(** C5: when a driver is supplied, or [Registry.Detect] resolves one,
    [AddOrDetect] succeeds and the device table then maps [id] to the
    record of [id], the endpoint, that driver and its name, whatever was
    there before, and maps every other id as before; when detection fails,
    [AddOrDetect] returns the error of [Registry.Detect] and the manager,
    its device table included, is as before. *)
Theorem AddOrDetect_table (m : Manager) (id : MinerID) (ep : Endpoint)
    (d : option Driver) (σ : Sys) :
  let resolved := match d with
                  | Some drv => (Ok drv, σ)
                  | None => Registry_Detect (m_reg m) ep σ
                  end in
  match resolved.1 with
  | Ok drv =>
      ∃ m',
        AddOrDetect m id ep d σ = ((None, m'), resolved.2) ∧
        m_dev m' !! id = Some {| dev_ID := id; dev_Endpoint := ep;
                                 dev_Driver := drv; dev_DriverName := driver_name drv |} ∧
        (∀ id', id' ≠ id → m_dev m' !! id' = m_dev m !! id') ∧
        m_reg m' = m_reg m ∧ m_pool m' = m_pool m
  | Fail e =>
      AddOrDetect m id ep d σ = ((Some e, m), resolved.2)
  end.
Proof.
  intros resolved. unfold AddOrDetect, bind.
  assert (Hres : match d with
                 | Some d0 => ret (Ok d0)
                 | None => Registry_Detect (m_reg m) ep
                 end σ = resolved) by (subst resolved; by destruct d).
  rewrite Hres. destruct resolved as [[drv|e] σ']; simpl; [|done].
  eexists. split; [reflexivity|]. simpl. split_and!; [|  |done|done].
  - apply lookup_insert_eq.
  - intros id' Hne. by apply lookup_insert_ne.
Qed.

End ManagerFacts.

(** ** Shutdown *)

Section CloseFacts.
Context {E : Env}.

Lemma closeAll_log (pool : DevicePool) (σ : Sys) :
  log (closeAll pool σ).2 = log σ ++ closeAll_calls pool.
Proof.
  unfold closeAll, closeAll_calls, bind.
  destruct (close_each (dp_idle pool) σ) as [u σ1] eqn:H1.
  destruct (close_each (range_order Session (elements (dp_active pool))) σ1) as [u' σ2] eqn:H2.
  simpl. change σ2 with (u', σ2).2. rewrite <- H2, close_each_log.
  change σ1 with (u, σ1).2. rewrite <- H1, close_each_log.
  by rewrite map_app, app_assoc.
Qed.

Lemma Close_loop_log (pools : list (MinerID * DevicePool)) (σ : Sys) :
  log (Close_loop pools σ).2
  = log σ ++ concat (map (λ entry, closeAll_calls entry.2) pools).
Proof.
  revert σ. induction pools as [|[id pool] rest IH]; intros σ; simpl.
  - by rewrite app_nil_r.
  - unfold bind. destruct (closeAll pool σ) as [pool' σ1] eqn:Hc.
    specialize (IH σ1). destruct (Close_loop rest σ1) as [rest' σ2]. simpl in *.
    rewrite IH. change σ1 with (pool', σ1).2. rewrite <- Hc, closeAll_log.
    by rewrite app_assoc.
Qed.

Lemma elem_of_closeAll_calls (pool : DevicePool) (s : Session) :
  s ∈ dp_idle pool ∨ s ∈ dp_active pool → EvClose s ∈ closeAll_calls pool.
Proof.
  intros Hs. unfold closeAll_calls. apply list_elem_of_In, in_map, list_elem_of_In.
  rewrite elem_of_app, (range_order_perm _ (elements (dp_active pool))), elem_of_elements.
  done.
Qed.

Lemma Stats_lookup (p : ConnectionPool) (id : MinerID) :
  Stats p !! id = pool_stats <$> cp_pools p !! id.
Proof. apply lookup_fmap. Qed.

(** C9: [Manager.Close] returns no error; on its way [Close] is called
    on every session that was idle or active in any sub-pool; every
    sub-pool is left by [closeAll] with no idle and no active session, and
    afterwards [Stats] has no entry left, so that the counts it gives for
    any device, tracked before or not, are zero. *)
Theorem Manager_Close_total (m : Manager) (σ : Sys) :
  let m' := (Manager_Close m σ).1.2 in
  let σ' := (Manager_Close m σ).2 in
  (Manager_Close m σ).1.1 = None ∧
  (∃ calls,
     log σ' = log σ ++ calls ∧
     ∀ id pool s,
       cp_pools (m_pool m) !! id = Some pool →
       s ∈ dp_idle pool ∨ s ∈ dp_active pool →
       EvClose s ∈ calls) ∧
  (∀ pool σ0,
     dp_idle (closeAll pool σ0).1 = [] ∧ dp_active (closeAll pool σ0).1 = ∅ ∧
     ActiveConnections (pool_stats (closeAll pool σ0).1) = 0 ∧
     IdleConnections (pool_stats (closeAll pool σ0).1) = 0) ∧
  GetPoolStats m' = ∅ ∧
  (∀ id,
     ActiveConnections (stats_index (GetPoolStats m') id) = 0 ∧
     IdleConnections (stats_index (GetPoolStats m') id) = 0).
Proof.
  intros m' σ'.
  assert (Hclose : Manager_Close m σ
                   = ((None, with_pool m (with_pools (m_pool m) ∅)),
                      (Close_loop (range_order _ (map_to_list (cp_pools (m_pool m)))) σ).2)).
  { unfold Manager_Close, Close, bind. by destruct (Close_loop _ σ). }
  subst m' σ'. rewrite Hclose. simpl.
  assert (Hstats : GetPoolStats (with_pool m (with_pools (m_pool m) ∅)) = ∅).
  { unfold GetPoolStats, Stats. simpl. apply fmap_empty. }
  split_and!.
  - done.
  - eexists. split; [apply Close_loop_log|].
    intros id pool s Hpool Hs. apply list_elem_of_In, in_concat.
    exists (closeAll_calls pool). split; [|by apply list_elem_of_In, elem_of_closeAll_calls].
    apply (in_map (λ entry, closeAll_calls entry.2) _ (id, pool)), list_elem_of_In.
    rewrite (range_order_perm _ (map_to_list (cp_pools (m_pool m)))).
    by apply elem_of_map_to_list.
  - intros pool σ0. rewrite closeAll_pool.
    cbn [with_sessions pool_stats dp_idle dp_active ActiveConnections IdleConnections length].
    by rewrite size_empty.
  - done.
  - intros id. rewrite Hstats. unfold stats_index. by rewrite lookup_empty.
Qed.

End CloseFacts.

(** ** Concrete runs *)

Lemma cleanExpired_keeps_fresh_witness :
  dp_idle (cleanExpired aged_pool (sim_sys 70000000000 [])).1 = [2; 4]%nat ∧
  log (cleanExpired aged_pool (sim_sys 70000000000 [])).2 = [EvClose 1%nat; EvClose 3%nat] ∧
  (3%nat ∉ dp_idle (cleanExpired aged_pool (sim_sys 70000000000 [])).1) ∧
  dp_active (cleanExpired aged_pool (sim_sys 70000000000 [])).1 = {[7%nat]} ∧
  dp_createdAt (cleanExpired aged_pool (sim_sys 70000000000 [])).1 !! 7%nat = Some 0 ∧
  IdleConnections (pool_stats (cleanExpired aged_pool (sim_sys 70000000000 [])).1) = 2.
Proof.
  destruct (cleanExpired_keeps_fresh aged_pool (sim_sys 70000000000 []))
    as (Hidle & _ & _ & Hlog & Hnone & Hactive & Hother & Hstats & _).
  split; [rewrite Hidle; vm_compute; reflexivity|].
  split; [rewrite Hlog; vm_compute; reflexivity|].
  split.
  { apply (Hnone 3%nat); [|vm_compute; reflexivity].
    do 2 apply list_elem_of_further. apply list_elem_of_here. }
  split; [rewrite Hactive; reflexivity|].
  split.
  { destruct (Hother 7%nat) as [Heq _].
    - intros Hin. repeat (apply elem_of_cons in Hin as [Hin|Hin]; [discriminate|]).
      by apply not_elem_of_nil in Hin.
    - etrans; [exact Heq | vm_compute; reflexivity]. }
  rewrite Hstats. vm_compute. reflexivity.
Defined.

(** At the edge where [Time.Sub] saturates: the exact difference lies
    below the time to live, the saturated one does not, and the session is
    closed. *)
Lemma cleanExpired_at_saturation :
  1767225600000000000 - 32503680000000000000 < dp_idleTime far_future_pool ∧
  time_Sub 1767225600000000000 32503680000000000000 = dp_idleTime far_future_pool ∧
  dp_idle (cleanExpired far_future_pool (sim_sys 1767225600000000000 [])).1 = [] ∧
  log (cleanExpired far_future_pool (sim_sys 1767225600000000000 [])).2 = [EvClose 1%nat].
Proof. split_and!; vm_compute; reflexivity. Qed.

Lemma WithSession_protocol_witness :
  WithSession busy_manager "y" failing_fn one_open
  = ((Some ErrNotFound, busy_manager), one_open) ∧
  (WithSession busy_manager "x" failing_fn one_open).1.1 = Some (OtherError "boom") ∧
  log (WithSession busy_manager "x" failing_fn one_open).2
  = [EvGetSession "x"; EvCallback 1%nat; EvReturnSession "x" 1%nat].
Proof.
  destruct (WithSession_protocol busy_manager "x" failing_fn one_open) as (_ & _ & Hok).
  assert (Hget : ∃ pool1 σ1,
            GetSession (m_pool busy_manager) "x" (sim_device "x") one_open
            = ((Ok 1%nat, pool1), σ1)).
  { eexists _, _. vm_compute. reflexivity. }
  destruct Hget as (pool1 & σ1 & Hget).
  destruct (Hok (sim_device "x") 1%nat pool1 σ1) as [Hws _];
    [vm_compute; reflexivity | exact Hget |].
  split.
  - apply (proj1 (WithSession_protocol busy_manager "y" failing_fn one_open)).
    vm_compute. reflexivity.
  - split; [rewrite Hws; reflexivity|]. vm_compute. reflexivity.
Defined.

Lemma AddOrDetect_table_witness :
  (∃ m',
     AddOrDetect sim_manager "x" sim_endpoint None one_open
     = ((None, m'),
        {| world := world one_open;
           log := [EvDetect 1%nat sim_endpoint; EvDetect 2%nat sim_endpoint] |}) ∧
     m_dev m' !! "x" = Some (sim_device "x")) ∧
  AddOrDetect (with_pool sim_manager (m_pool sim_manager)) "x" sim_endpoint None one_open
  = AddOrDetect sim_manager "x" sim_endpoint None one_open.
Proof.
  split; [|reflexivity].
  pose proof (AddOrDetect_table sim_manager "x" sim_endpoint None one_open) as Hthm.
  cbv zeta in Hthm.
  assert (Hdetect : Registry_Detect (m_reg sim_manager) sim_endpoint one_open
                    = (Ok 2%nat,
                       {| world := world one_open;
                          log := [EvDetect 1%nat sim_endpoint; EvDetect 2%nat sim_endpoint] |}))
    by (vm_compute; reflexivity).
  rewrite Hdetect in Hthm. destruct Hthm as (m' & Hadd & Hx & _).
  exists m'. split; [exact Hadd | exact Hx].
Defined.

(** Registering id x twice with different endpoints leaves one record
    for x, that of the second call. *)
Lemma AddOrDetect_twice_overwrites :
  m_dev (AddOrDetect
           (AddOrDetect sim_manager "x" {| Address := "10.0.0.1:4028" |} (Some 2%nat) one_open).1.2
           "x" {| Address := "10.0.0.2:4028" |} (Some 1%nat) one_open).1.2
  = {["x" := {| dev_ID := "x"; dev_Endpoint := {| Address := "10.0.0.2:4028" |};
                dev_Driver := 1%nat; dev_DriverName := "cgminer" |}]}.
Proof. vm_compute. reflexivity. Qed.

(** When detection fails the error comes back and the manager is unchanged. *)
Lemma AddOrDetect_detection_error :
  AddOrDetect (NewManager (foldl Register NewRegistry [1; 3; 2]%nat))
              "x" sim_endpoint None one_open
  = ((Some probe_failed, NewManager (foldl Register NewRegistry [1; 3; 2]%nat)),
     {| world := world one_open;
        log := [EvDetect 1%nat sim_endpoint; EvDetect 3%nat sim_endpoint] |}).
Proof. vm_compute. reflexivity. Qed.

Lemma Manager_Close_total_witness :
  ∃ calls,
    log (Manager_Close busy_manager one_open).2 = log one_open ++ calls ∧
    EvClose 1%nat ∈ calls ∧ EvClose 2%nat ∈ calls ∧
    GetPoolStats (Manager_Close busy_manager one_open).1.2 = ∅.
Proof.
  destruct (Manager_Close_total busy_manager one_open)
    as (_ & (calls & Hlog & Hall) & _ & Hstats & _).
  exists calls. split; [exact Hlog|]. split; [|split; [|exact Hstats]].
  - apply (Hall "x" busy_sub_pool 1%nat); [vm_compute; reflexivity|].
    left. apply list_elem_of_here.
  - apply (Hall "x" busy_sub_pool 2%nat); [vm_compute; reflexivity|].
    right. vm_compute. reflexivity.
Defined.

(** * Further properties of the code *)

(** ** Registry: lookup by name, probing order *)

Section RegistryMore.
Context {E : Env}.

Lemma Get_loop_first (ds : list Driver) (name : string) :
  match Get_loop ds name with
  | Some d =>
      ∃ ds1 ds2, ds = ds1 ++ d :: ds2 ∧ driver_name d = name ∧
                 ∀ d', d' ∈ ds1 → driver_name d' ≠ name
  | None => ∀ d, d ∈ ds → driver_name d ≠ name
  end.
Proof.
  induction ds as [|d ds IH]; simpl.
  - intros d Hd. by apply not_elem_of_nil in Hd.
  - destruct (String.eqb (driver_name d) name) eqn:Heq.
    + apply String.eqb_eq in Heq. exists [], ds. split_and!; [done|done|].
      intros d' Hd'. by apply not_elem_of_nil in Hd'.
    + apply String.eqb_neq in Heq. destruct (Get_loop ds name) as [d0|].
      * destruct IH as (ds1 & ds2 & -> & Hname & Hfirst).
        exists (d :: ds1), ds2. split_and!; [done|done|].
        intros d' [->|Hd']%elem_of_cons; [done | by apply Hfirst].
      * intros d' [->|Hd']%elem_of_cons; [done | by apply IH].
Qed.

(** X1: [Registry.Get] answers with the first driver, in registration order,
    whose name is the one asked for, and with nil exactly when no
    registered driver has that name. *)
Theorem Registry_Get_first_by_name (r : Registry) (name : string) :
  match Registry_Get r name with
  | Some d =>
      ∃ ds1 ds2, drivers r = ds1 ++ d :: ds2 ∧ driver_name d = name ∧
                 ∀ d', d' ∈ ds1 → driver_name d' ≠ name
  | None => ∀ d, d ∈ drivers r → driver_name d ≠ name
  end.
Proof. apply Get_loop_first. Qed.

Lemma Get_loop_app (ds1 ds2 : list Driver) (name : string) :
  Get_loop (ds1 ++ ds2) name
  = match Get_loop ds1 name with
    | Some d => Some d
    | None => Get_loop ds2 name
    end.
Proof.
  induction ds1 as [|d ds1 IH]; simpl; [done|].
  by destruct (String.eqb (driver_name d) name).
Qed.

(** X2: registering a driver does not change what [Get] finds for a name
    that was already taken: a later driver of the same name is never
    returned.  For a name not yet taken, [Get] finds the new driver exactly
    when the name is its own. *)
Theorem Registry_Get_after_Register (r : Registry) (d : Driver) (name : string) :
  Registry_Get (Register r d) name
  = match Registry_Get r name with
    | Some d0 => Some d0
    | None => if String.eqb (driver_name d) name then Some d else None
    end.
Proof. unfold Registry_Get, Register. simpl. by rewrite Get_loop_app. Qed.

Lemma detect_loop_prefix (ds : list Driver) (ep : Endpoint) (σ : Sys) :
  ∃ n, (n ≤ length ds)%nat ∧
       log (detect_loop ds ep σ).2 = log σ ++ map (λ d, EvDetect d ep) (take n ds) ∧
       (∀ d, (detect_loop ds ep σ).1 = Ok d → (0 < n)%nat ∧ ds !! (n - 1)%nat = Some d).
Proof.
  revert σ. induction ds as [|d ds IH]; intros σ.
  - exists 0%nat. simpl. split_and!; [done|by rewrite app_nil_r|done].
  - simpl. unfold bind. destruct (call_detect d ep σ) as [[ok err] σ1] eqn:Hd.
    pose proof (call_detect_log _ _ _ _ _ Hd) as Hlog.
    destruct err as [e|]; [|destruct ok].
    + exists 1%nat. cbn [take map length ret fst snd].
      split_and!; [lia|by rewrite Hlog, take_0|done].
    + exists 1%nat. cbn [take map length ret fst snd].
      split_and!; [lia|by rewrite Hlog, take_0|].
      intros d' [= ->]. split; [lia|done].
    + destruct (IH σ1) as (n & Hn & Hlogn & Hok). exists (S n). simpl.
      split_and!; [lia| |].
      * by rewrite Hlogn, Hlog, <- app_assoc.
      * intros d' Hd'. destruct (Hok d' Hd') as [Hpos Hlast]. split; [lia|].
        destruct n; [lia|]. simpl in *. by rewrite Nat.sub_0_r in *.
Qed.

(** X3: whatever the drivers answer, [Registry.Detect] probes an initial
    stretch of the registered drivers, in registration order and each
    once, and calls nothing else; the driver it returns, if any, is the
    last one it probed.  An empty registry gives the driver-not-found
    error without any call. *)
Theorem Registry_Detect_probes_prefix (r : Registry) (ep : Endpoint) (σ : Sys) :
  (∃ n, (n ≤ length (drivers r))%nat ∧
        log (Registry_Detect r ep σ).2
        = log σ ++ map (λ d, EvDetect d ep) (take n (drivers r)) ∧
        (∀ d, (Registry_Detect r ep σ).1 = Ok d →
              (0 < n)%nat ∧ drivers r !! (n - 1)%nat = Some d)) ∧
  (drivers r = [] → Registry_Detect r ep σ = (Fail NewDriverNotFoundError, σ)).
Proof.
  split; [apply detect_loop_prefix|].
  intros Hnil. unfold Registry_Detect. by rewrite Hnil.
Qed.



End RegistryMore.

(** Drivers 1 and 4 share the name cgminer: [Get] finds the one
    registered first; no driver is called luxos. *)
Lemma Registry_Get_duplicate_name_example :
  Registry_Get (foldl Register NewRegistry [1; 2; 3; 4]%nat) "cgminer" = Some 1%nat ∧
  Registry_Get (foldl Register NewRegistry [1; 2; 3; 4]%nat) "luxos" = None.
Proof. split; vm_compute; reflexivity. Qed.


(** ** Error codes and HTTP status *)

Lemma HTTPStatus_cases (Code : string) :
  (Code = ErrCodeNotFound ∨ Code = ErrCodeDriverNotFound) ∧ HTTPStatus Code = 404 ∨
  Code = ErrCodeNotImplemented ∧ HTTPStatus Code = 501 ∨
  Code = ErrCodeInvalidInput ∧ HTTPStatus Code = 400 ∨
  Code = ErrCodeUnauthorized ∧ HTTPStatus Code = 401 ∨
  (Code = ErrCodeConnectionFailed ∨ Code = ErrCodeTimeout ∨ Code = ErrCodeDeviceError)
    ∧ HTTPStatus Code = 502 ∨
  (Code ≠ ErrCodeNotFound ∧ Code ≠ ErrCodeDriverNotFound ∧ Code ≠ ErrCodeNotImplemented ∧
   Code ≠ ErrCodeInvalidInput ∧ Code ≠ ErrCodeUnauthorized ∧ Code ≠ ErrCodeConnectionFailed ∧
   Code ≠ ErrCodeTimeout ∧ Code ≠ ErrCodeDeviceError) ∧ HTTPStatus Code = 500.
Proof.
  unfold HTTPStatus.
  destruct (String.eqb_spec Code ErrCodeNotFound) as [->|H1]; [by left; split; [left|]|].
  destruct (String.eqb_spec Code ErrCodeDriverNotFound) as [->|H2]; [by left; split; [right|]|].
  destruct (String.eqb_spec Code ErrCodeNotImplemented) as [->|H3]; [by right; left|].
  destruct (String.eqb_spec Code ErrCodeInvalidInput) as [->|H4]; [by right; right; left|].
  destruct (String.eqb_spec Code ErrCodeUnauthorized) as [->|H5];
    [by right; right; right; left|].
  destruct (String.eqb_spec Code ErrCodeConnectionFailed) as [->|H6];
    [by right; right; right; right; left; split; [left|]|].
  destruct (String.eqb_spec Code ErrCodeTimeout) as [->|H7];
    [by right; right; right; right; left; split; [right; left|]|].
  destruct (String.eqb_spec Code ErrCodeDeviceError) as [->|H8];
    [by right; right; right; right; left; split; [right; right|]|].
  simpl. right; right; right; right; right. done.
Qed.

(** X5: [HTTPStatus] always gives a client or server error status, one of
    400, 401, 404, 500, 501 and 502; it gives 404 exactly for the codes
    NOT_FOUND and DRIVER_NOT_FOUND, 502 exactly for CONNECTION_FAILED,
    TIMEOUT and DEVICE_ERROR, and 500 for every code it does not know. *)
Theorem HTTPStatus_classes (Code : string) :
  HTTPStatus Code ∈ [400; 401; 404; 500; 501; 502] ∧
  (HTTPStatus Code = 404 ↔ Code = ErrCodeNotFound ∨ Code = ErrCodeDriverNotFound) ∧
  (HTTPStatus Code = 502 ↔
     Code = ErrCodeConnectionFailed ∨ Code = ErrCodeTimeout ∨ Code = ErrCodeDeviceError) ∧
  (Code ∉ [ErrCodeNotFound; ErrCodeDriverNotFound; ErrCodeNotImplemented;
           ErrCodeInvalidInput; ErrCodeUnauthorized; ErrCodeConnectionFailed;
           ErrCodeTimeout; ErrCodeDeviceError] → HTTPStatus Code = 500).
Proof.
  destruct (HTTPStatus_cases Code)
    as [[Hc ->]|[[Hc ->]|[[Hc ->]|[[Hc ->]|[[Hc ->]|[Hc ->]]]]]].
  - split_and!; [set_solver|done| |].
    + split; [done|]. by intros [->| [->| ->]]; destruct Hc as [Hc|Hc].
    + intros Hnot. exfalso. apply Hnot. destruct Hc as [->| ->]; set_solver.
  - subst Code. split_and!; [set_solver| | |].
    + split; [done|]. by intros [?|?].
    + split; [done|]. by intros [?|[?|?]].
    + intros Hnot. exfalso. apply Hnot. set_solver.
  - subst Code. split_and!; [set_solver| | |].
    + split; [done|]. by intros [?|?].
    + split; [done|]. by intros [?|[?|?]].
    + intros Hnot. exfalso. apply Hnot. set_solver.
  - subst Code. split_and!; [set_solver| | |].
    + split; [done|]. by intros [?|?].
    + split; [done|]. by intros [?|[?|?]].
    + intros Hnot. exfalso. apply Hnot. set_solver.
  - split_and!; [set_solver| |done|].
    + split; [done|]. by intros [->| ->]; destruct Hc as [Hc|[Hc|Hc]].
    + intros Hnot. exfalso. apply Hnot. destruct Hc as [->| [->| ->]]; set_solver.
  - destruct Hc as (? & ? & ? & ? & ? & ? & ? & ?). split_and!; [set_solver| | |done].
    + split; [done|]. by intros [?|?].
    + split; [done|]. by intros [?|[?|?]].
Qed.

(** ** Manager: device table, listings, shutdown *)

Section ManagerMore.
Context {E : Env}.

Lemma range_order_nil (A : Type) : range_order A [] = [].
Proof. apply Permutation_nil_r. by rewrite range_order_perm. Qed.

Lemma AddOrDetect_cases (m : Manager) (id : MinerID) (ep : Endpoint)
    (d : option Driver) (σ : Sys) :
  (AddOrDetect m id ep d σ).1.2 = m ∨
  ∃ drv, (AddOrDetect m id ep d σ).1.2
         = with_dev m (<[id := {| dev_ID := id; dev_Endpoint := ep; dev_Driver := drv;
                                  dev_DriverName := driver_name drv |}]> (m_dev m)).
Proof.
  unfold AddOrDetect, bind.
  destruct (match d with
            | Some d0 => ret (Ok d0)
            | None => Registry_Detect (m_reg m) ep
            end σ) as [[drv|e] σ']; simpl; [right; eauto | by left].
Qed.

Lemma Manager_Close_eq (m : Manager) (σ : Sys) :
  Manager_Close m σ
  = ((None, with_pool m (with_pools (m_pool m) ∅)),
     (Close_loop (range_order _ (map_to_list (cp_pools (m_pool m)))) σ).2).
Proof. unfold Manager_Close, Close, bind. by destruct (Close_loop _ σ). Qed.

Lemma WithSession_dev (m : Manager) (id : MinerID) (fn : Callback) (σ : Sys) :
  (∀ sess m0 w, m_dev (fn sess m0 w).1.2 = m_dev m0) →
  m_dev (WithSession m id fn σ).1.2 = m_dev m.
Proof.
  intros Hfn. unfold WithSession. destruct (m_dev m !! id) as [d|]; [|done].
  unfold bind. destruct (GetSession (m_pool m) id d σ) as [[[sess|e] pool] σ1]; [|done].
  unfold call_fn. specialize (Hfn sess (with_pool m pool) (world σ1)).
  destruct (fn sess (with_pool m pool) (world σ1)) as [[res m'] w]. simpl in *.
  by destruct (ReturnSession (m_pool m') id sess _).
Qed.

Lemma built_consistent (m : Manager) : built m → table_consistent m.
Proof.
  unfold table_consistent.
  induction 1 as [reg opt|m id ep d σ _ IH|m σ _ IH|m id fn σ _ IH Hfn]; intros id' d'.
  - simpl. by rewrite lookup_empty.
  - destruct (AddOrDetect_cases m id ep d σ) as [->|[drv ->]]; [apply IH|]. simpl.
    destruct (decide (id = id')) as [<-|Hne].
    + rewrite lookup_insert_eq. by intros [= <-].
    + rewrite lookup_insert_ne by done. apply IH.
  - rewrite Manager_Close_eq. simpl. apply IH.
  - rewrite (WithSession_dev _ _ _ _ Hfn). apply IH.
Qed.

(** X6: in a manager built by [AddOrDetect], [Close] and [WithSession],
    every record of the device table is stored under its own id and its
    [DriverName] is the name of its driver. *)
Theorem built_table_consistent (m : Manager) (id : MinerID) (d : Device) :
  built m →
  m_dev m !! id = Some d →
  dev_ID d = id ∧ dev_DriverName d = driver_name (dev_Driver d).
Proof. intros Hbuilt. apply (built_consistent m Hbuilt). Qed.

Lemma map_as_fmap {A B : Type} (f : A → B) (l : list A) : map f l = f <$> l.
Proof. induction l as [|x l IH]; simpl; [done | by rewrite IH]. Qed.

Lemma Manager_List_perm (m : Manager) :
  Manager_List m ≡ₚ map snd (map_to_list (m_dev m)).
Proof.
  unfold Manager_List. apply Permutation_map, range_order_perm.
Qed.

(** X7: [List] returns each record of the device table once, in some order:
    as many devices as the table has ids, and a device is listed exactly
    when it is registered under some id.  [DeviceInfos] returns the id,
    address and driver name of the same devices. *)
Theorem Manager_List_snapshot (m : Manager) :
  Manager_List m ≡ₚ map snd (map_to_list (m_dev m)) ∧
  length (Manager_List m) = size (m_dev m) ∧
  (∀ d, d ∈ Manager_List m ↔ ∃ id, m_dev m !! id = Some d) ∧
  DeviceInfos m ≡ₚ map device_info (Manager_List m).
Proof.
  split_and!.
  - apply Manager_List_perm.
  - rewrite Manager_List_perm, length_map. apply length_map_to_list.
  - intros d. rewrite Manager_List_perm. rewrite list_elem_of_In, in_map_iff. split.
    + intros ([id d0] & <- & Hin). exists id.
      by apply elem_of_map_to_list, list_elem_of_In.
    + intros [id Hid]. exists (id, d). split; [done|].
      by apply list_elem_of_In, elem_of_map_to_list.
  - unfold DeviceInfos, Manager_List. by rewrite map_map.
Qed.

(** X8: in a manager built by [AddOrDetect], [Close] and [WithSession], no
    id appears twice in what [List] or [DeviceInfos] return. *)
Theorem Manager_List_ids_unique (m : Manager) :
  built m →
  NoDup (map dev_ID (Manager_List m)) ∧ NoDup (map info_ID (DeviceInfos m)).
Proof.
  intros Hbuilt. pose proof (built_consistent m Hbuilt) as Hcons.
  assert (Hids : map dev_ID (map snd (map_to_list (m_dev m)))
                 = map fst (map_to_list (m_dev m))).
  { rewrite map_map. apply map_ext_in. intros [id d] Hin. simpl.
    by apply (Hcons id d), elem_of_map_to_list, list_elem_of_In. }
  assert (Hnd : NoDup (map dev_ID (Manager_List m))).
  { rewrite Manager_List_perm, Hids, map_as_fmap. apply NoDup_fst_map_to_list. }
  split; [done|].
  unfold DeviceInfos. unfold Manager_List in Hnd. rewrite map_map in *. done.
Qed.

(** X9: [Manager.Close] empties the pool but unregisters nothing: the
    pool is left without any sub-pool, its limits as they were, and
    [Stats] without any entry; registry and device table are as before, so
    [List] returns the same devices, in whatever order.  Closing again
    calls nothing and changes nothing. *)
Theorem Manager_Close_keeps_devices (m : Manager) (σ : Sys) :
  let m' := (Manager_Close m σ).1.2 in
  m_dev m' = m_dev m ∧
  m_reg m' = m_reg m ∧
  Manager_List m' ≡ₚ Manager_List m ∧
  cp_pools (m_pool m') = ∅ ∧
  GetPoolStats m' = ∅ ∧
  (cp_maxIdle (m_pool m'), cp_maxOpen (m_pool m'), cp_idleTime (m_pool m'))
  = (cp_maxIdle (m_pool m), cp_maxOpen (m_pool m), cp_idleTime (m_pool m)) ∧
  (∀ σ', Manager_Close m' σ' = ((None, m'), σ')).
Proof.
  intros m'. subst m'. rewrite Manager_Close_eq. simpl.
  split_and!; [done|done| |done|apply fmap_empty|done|].
  - by rewrite !Manager_List_perm.
  - intros σ'. rewrite Manager_Close_eq. simpl.
    rewrite map_to_list_empty, range_order_nil. simpl. by destruct σ'.
Qed.

(** The first calls of [WithSession] when the sub-pool it turns to, the
    device's own or a new one, has to open a session. *)
Lemma WithSession_first_calls
    (m : Manager) (id : MinerID) (fn : Callback) (σ : Sys) (d : Device) (pool : DevicePool) :
  m_dev m !! id = Some d →
  match cp_pools (m_pool m) !! id with
  | Some pool0 => pool0
  | None => new_DevicePool (m_pool m) d
  end = pool →
  dp_idle pool = [] →
  Z.of_nat (size (dp_active pool)) < dp_maxOpen pool →
  ∃ calls,
    log (WithSession m id fn σ).2
    = log σ ++ EvGetSession id
        :: EvOpen (dev_Driver (dp_device pool)) (dev_Endpoint (dp_device pool)) :: calls.
Proof.
  intros Hd Hpool Hidle Hroom. unfold WithSession. rewrite Hd. unfold bind.
  rewrite GetSession_eq. cbv zeta. rewrite Hpool.
  set (σ0 := {| world := world σ; log := log σ ++ [EvGetSession id] |}).
  destruct (call_open (dev_Driver (dp_device pool)) (dev_Endpoint (dp_device pool)) σ0)
    as [[s err] σ1] eqn:Hopen.
  assert (Hlog1 : log σ1 = log σ ++ [EvGetSession id;
            EvOpen (dev_Driver (dp_device pool)) (dev_Endpoint (dp_device pool))]).
  { change σ1 with (s, err, σ1).2. rewrite <- Hopen, call_open_log. simpl.
    by rewrite <- app_assoc. }
  rewrite (getSession_open pool σ0 σ1 s err Hidle Hroom Hopen).
  destruct err as [e|]; simpl.
  - exists []. done.
  - unfold call_fn.
    destruct (fn s _ (world σ1)) as [[res m'] w]. simpl.
    match goal with
    | |- context [ReturnSession ?p ?i ?x ?st] =>
        destruct (ReturnSession_log p i x st) as (calls & Hlog & _);
        destruct (ReturnSession p i x st) as [pool' σ']
    end.
    simpl in *. rewrite Hlog. simpl. rewrite Hlog1.
    exists (EvCallback s :: EvReturnSession id s :: calls).
    by rewrite <- !app_assoc.
Qed.

(** X10: a sub-pool keeps the device record it was created with.  When
    the table has a record for [id] and the pool already has a sub-pool
    for [id] that must open a new session, [WithSession] calls [Open] on
    the driver and endpoint of the sub-pool's record, whatever record the
    table holds now. *)
Theorem WithSession_opens_with_captured_device
    (m : Manager) (id : MinerID) (fn : Callback) (σ : Sys) (d : Device) (pool : DevicePool) :
  m_dev m !! id = Some d →
  cp_pools (m_pool m) !! id = Some pool →
  dp_idle pool = [] →
  Z.of_nat (size (dp_active pool)) < dp_maxOpen pool →
  ∃ calls,
    log (WithSession m id fn σ).2
    = log σ ++ EvGetSession id
        :: EvOpen (dev_Driver (dp_device pool)) (dev_Endpoint (dp_device pool)) :: calls.
Proof.
  intros Hd Hpool Hidle Hroom.
  apply (WithSession_first_calls m id fn σ d pool); [done| |done|done].
  by rewrite Hpool.
Qed.

(** X20: when the pool allows at least one open session and has no
    sub-pool for a registered [id], [WithSession] calls [Open] on the
    driver and endpoint the device table holds for [id] at that moment;
    this is so, in particular, for every registered device once
    [Manager.Close] has run. *)
Theorem WithSession_opens_with_table_record
    (m : Manager) (id : MinerID) (fn : Callback) (σ : Sys) (d : Device) :
  m_dev m !! id = Some d →
  0 < cp_maxOpen (m_pool m) →
  (cp_pools (m_pool m) !! id = None →
   ∃ calls,
     log (WithSession m id fn σ).2
     = log σ ++ EvGetSession id :: EvOpen (dev_Driver d) (dev_Endpoint d) :: calls) ∧
  (∀ σ0, ∃ calls,
     log (WithSession (Manager_Close m σ0).1.2 id fn σ).2
     = log σ ++ EvGetSession id :: EvOpen (dev_Driver d) (dev_Endpoint d) :: calls).
Proof.
  intros Hd Hmax.
  assert (Hgen : ∀ m1, m_dev m1 !! id = Some d → 0 < cp_maxOpen (m_pool m1) →
            cp_pools (m_pool m1) !! id = None →
            ∃ calls,
              log (WithSession m1 id fn σ).2
              = log σ ++ EvGetSession id :: EvOpen (dev_Driver d) (dev_Endpoint d) :: calls).
  { intros m1 Hd1 Hmax1 Hnone.
    apply (WithSession_first_calls m1 id fn σ d (new_DevicePool (m_pool m1) d));
      [done|by rewrite Hnone|done|].
    cbn [new_DevicePool dp_active dp_maxOpen]. rewrite size_empty. simpl. lia. }
  split; [by apply Hgen|].
  intros σ0. apply Hgen; rewrite Manager_Close_eq; simpl; [done|done|].
  apply lookup_empty.
Qed.

End ManagerMore.

(** ** Pool: accounting, isolation, limits, misuse *)

Section PoolMore.
Context {E : Env}.

(** X11: whatever callers do, handing back sessions twice or sessions the pool
    never gave out included, a sub-pool with a non-negative [maxIdle]
    never reports more idle sessions than [maxIdle]. *)
Theorem idle_count_never_exceeds_maxIdle
    (p : ConnectionPool) (id : MinerID) (st : PoolStats) :
  reach any_use p →
  Stats p !! id = Some st →
  0 ≤ MaxIdle st →
  IdleConnections st ≤ MaxIdle st.
Proof.
  intros Hreach Hst Hpos. rewrite Stats_lookup in Hst.
  destruct (cp_pools p !! id) as [pool|] eqn:Hpool; [|done].
  injection Hst as <-. simpl in *.
  by apply (reach_any_use_idle_kept_bounded p Hreach id pool Hpool).
Qed.

(** X12: when sessions are handed back only while active, the sessions a
    sub-pool holds, idle and active together, never number more than
    [maxOpen], and no session sits in the idle list twice. *)
Theorem live_sessions_never_exceed_maxOpen
    (p : ConnectionPool) (id : MinerID) (pool : DevicePool) :
  reach return_active p →
  cp_pools p !! id = Some pool →
  IdleConnections (pool_stats pool) + ActiveConnections (pool_stats pool) ≤ dp_maxOpen pool ∧
  NoDup (dp_idle pool).
Proof.
  intros Hreach Hpool.
  destruct (reach_return_active_well_formed p Hreach id pool Hpool)
    as (_ & Hnd & _ & _ & Htotal).
  split; [simpl; lia | done].
Qed.

(** X13: [GetSession] and [ReturnSession] for one device leave the sub-pools
    of all other devices, and the pool's own limits, exactly as they
    were. *)
Theorem pool_calls_touch_one_device
    (p : ConnectionPool) (id id' : MinerID) (device : Device) (s : Session) (σ : Sys) :
  id' ≠ id →
  let p1 := (GetSession p id device σ).1.2 in
  let p2 := (ReturnSession p id s σ).1 in
  cp_pools p1 !! id' = cp_pools p !! id' ∧
  cp_pools p2 !! id' = cp_pools p !! id' ∧
  (cp_maxIdle p1, cp_maxOpen p1, cp_idleTime p1) = (cp_maxIdle p, cp_maxOpen p, cp_idleTime p) ∧
  (cp_maxIdle p2, cp_maxOpen p2, cp_idleTime p2) = (cp_maxIdle p, cp_maxOpen p, cp_idleTime p).
Proof.
  intros Hne p1 p2. subst p1 p2. rewrite GetSession_eq, ReturnSession_eq. simpl.
  destruct (cp_pools p !! id) as [pool|] eqn:Hpool; simpl;
    rewrite ?lookup_insert_ne by done; done.
Qed.

Lemma getSession_same_config (pool : DevicePool) (σ : Sys) :
  same_config pool (getSession pool σ).1.2.
Proof.
  destruct (getSession_cases pool σ)
    as [(l & x & _ & ->)|[(_ & _ & ->)|(_ & _ & s & err & σ1 & _ & ->)]];
    [| |destruct err]; by repeat split.
Qed.

Lemma returnSession_same_config (pool : DevicePool) (s : Session) (σ : Sys) :
  same_config pool (returnSession pool s σ).1.
Proof.
  destruct (returnSession_cases pool s σ) as [[_ ->]|[_ ->]]; by repeat split.
Qed.

Lemma sublist_filter_bool (f : Session → bool) (l : list Session) :
  sublist (List.filter f l) l.
Proof.
  induction l as [|x l IH]; simpl; [constructor|].
  destruct (f x); by constructor.
Qed.

Lemma cleanExpired_swept (pool : DevicePool) (σ : Sys) :
  swept pool (cleanExpired pool σ).1.
Proof.
  rewrite cleanExpired_eq. simpl. split_and!; [by repeat split|done|].
  apply sublist_filter_bool.
Qed.

(** [CleanUp] handles the sub-pools of a snapshot one by one: a relation
    that [cleanExpired] establishes between a sub-pool before and after
    holds, id by id, between the maps before and after. *)
Lemma CleanUp_loop_rel (R : DevicePool → DevicePool → Prop)
    (pools0 : gmap MinerID DevicePool) (snapshot : list (MinerID * DevicePool))
    (pools : gmap MinerID DevicePool) (σ : Sys) :
  (∀ pool σ', R pool (cleanExpired pool σ').1) →
  (∀ id pool, (id, pool) ∈ snapshot → pools0 !! id = Some pool) →
  (∀ id, option_Forall2 R (pools0 !! id) (pools !! id)) →
  ∀ id, option_Forall2 R (pools0 !! id) ((CleanUp_loop snapshot pools σ).1 !! id).
Proof.
  intros HR. revert pools σ.
  induction snapshot as [|[id0 pool0] rest IH]; intros pools σ Hsnap Hrel; simpl; [done|].
  unfold bind. destruct (cleanExpired pool0 σ) as [pool' σ'] eqn:Hc.
  apply IH.
  - intros id pool Hin. apply Hsnap. by right.
  - intros id. destruct (decide (id0 = id)) as [<-|Hne].
    + rewrite lookup_insert_eq, (Hsnap id0 pool0) by left. constructor.
      specialize (HR pool0 σ). by rewrite Hc in HR.
    + rewrite lookup_insert_ne by done. apply Hrel.
Qed.

Lemma CleanUp_rel (R : DevicePool → DevicePool → Prop) (p : ConnectionPool) (σ : Sys) :
  (∀ pool, R pool pool) →
  (∀ pool σ', R pool (cleanExpired pool σ').1) →
  ∀ id, option_Forall2 R (cp_pools p !! id) (cp_pools (CleanUp p σ).1 !! id).
Proof.
  intros Hrefl HR id. unfold CleanUp, bind.
  destruct (CleanUp_loop _ _ σ) as [pools' σ'] eqn:Hloop. simpl.
  change pools' with (pools', σ').1. rewrite <- Hloop.
  apply CleanUp_loop_rel; [done| |].
  - intros id0 pool Hin. apply elem_of_map_to_list.
    by rewrite <- (range_order_perm _ (map_to_list (cp_pools p))).
  - intros id0. destruct (cp_pools p !! id0); constructor. apply Hrefl.
Qed.

Lemma CleanUp_loop_log (snapshot : list (MinerID * DevicePool))
    (pools : gmap MinerID DevicePool) (σ : Sys) :
  ∃ ss, log (CleanUp_loop snapshot pools σ).2 = log σ ++ map EvClose ss ∧
        ∀ s, s ∈ ss → ∃ entry, entry ∈ snapshot ∧ s ∈ dp_idle entry.2.
Proof.
  revert pools σ. induction snapshot as [|[id0 pool0] rest IH]; intros pools σ; simpl.
  - exists []. simpl. split; [by rewrite app_nil_r|]. intros s Hs.
    by apply not_elem_of_nil in Hs.
  - unfold bind. destruct (cleanExpired pool0 σ) as [pool' σ'] eqn:Hc.
    destruct (IH (<[id0 := pool']> pools) σ') as (ss & Hlog & Hss).
    pose proof (cleanExpired_eq pool0 σ) as Heq. rewrite Hc in Heq.
    injection Heq as _ Hσ'.
    set (stale := List.filter (stale_at (time_now (world σ)) (dp_idleTime pool0)
                                        (dp_createdAt pool0)) (dp_idle pool0)) in *.
    exists (stale ++ ss). split.
    + rewrite Hlog, Hσ', close_each_log, map_app. by rewrite <- app_assoc.
    + intros s [Hs|Hs]%elem_of_app.
      * exists (id0, pool0). split; [by left|]. simpl.
        by apply elem_of_filter_bool in Hs as [? _].
      * destruct (Hss s Hs) as (entry & Hin & Hidle). exists entry. split; [by right|done].
Qed.

(** X14: a sub-pool keeps the device record and the limits it was created
    with: no call of [SetLimits], [GetSession], [ReturnSession] or
    [CleanUp], for this device or another, changes them in a sub-pool that
    is there before and after. *)
Theorem sub_pool_keeps_device_and_limits
    (op : PoolOp) (p : ConnectionPool) (σ : Sys) (id : MinerID) (pool pool' : DevicePool) :
  cp_pools p !! id = Some pool →
  cp_pools (apply_op op p σ).1 !! id = Some pool' →
  same_config pool pool'.
Proof.
  assert (Hrefl : ∀ pool0, same_config pool0 pool0) by (by repeat split).
  intros Hpool. destruct op as [maxIdle maxOpen idleTime|id0 device|id0 s| |]; simpl.
  - rewrite Hpool. intros [= <-]. apply Hrefl.
  - unfold bind. destruct (GetSession p id0 device σ) as [[r p'] σ'] eqn:Hg. simpl.
    rewrite GetSession_eq in Hg. injection Hg as _ <- _. simpl.
    destruct (decide (id0 = id)) as [->|Hne].
    + rewrite lookup_insert_eq, Hpool. intros [= <-]. apply getSession_same_config.
    + rewrite lookup_insert_ne, Hpool by done. intros [= <-]. apply Hrefl.
  - rewrite ReturnSession_eq. simpl.
    destruct (cp_pools p !! id0) as [pool0|] eqn:Hpool0; simpl.
    + destruct (decide (id0 = id)) as [->|Hne].
      * rewrite lookup_insert_eq. intros [= <-].
        rewrite Hpool in Hpool0. injection Hpool0 as <-. apply returnSession_same_config.
      * rewrite lookup_insert_ne, Hpool by done. intros [= <-]. apply Hrefl.
    + rewrite Hpool. intros [= <-]. apply Hrefl.
  - intros Hpool'.
    pose proof (CleanUp_rel same_config p σ Hrefl
                  (λ pool0 σ', proj1 (cleanExpired_swept pool0 σ')) id) as Hrel.
    rewrite Hpool, Hpool' in Hrel. by inversion Hrel.
  - by rewrite Close_pools, lookup_empty.
Qed.

(** X15: [CleanUp] neither adds nor removes a sub-pool; in each it leaves the
    device, the limits and the active set as they were and only takes
    entries out of the idle list; the only calls it makes are calls of
    [Close], each on a session that was idle in some sub-pool. *)
Theorem CleanUp_only_evicts_idle (p : ConnectionPool) (σ : Sys) :
  (∀ id, option_Forall2 swept (cp_pools p !! id) (cp_pools (CleanUp p σ).1 !! id)) ∧
  (cp_maxIdle (CleanUp p σ).1, cp_maxOpen (CleanUp p σ).1, cp_idleTime (CleanUp p σ).1)
  = (cp_maxIdle p, cp_maxOpen p, cp_idleTime p) ∧
  ∃ ss, log (CleanUp p σ).2 = log σ ++ map EvClose ss ∧
        ∀ s, s ∈ ss → ∃ id pool, cp_pools p !! id = Some pool ∧ s ∈ dp_idle pool.
Proof.
  split_and!.
  - apply CleanUp_rel; [|apply cleanExpired_swept].
    intros pool. by repeat split.
  - unfold CleanUp, bind. by destruct (CleanUp_loop _ _ σ).
  - unfold CleanUp, bind.
    destruct (CleanUp_loop_log (range_order _ (map_to_list (cp_pools p))) (cp_pools p) σ)
      as (ss & Hlog & Hss).
    destruct (CleanUp_loop _ _ σ) as [pools' σ']. simpl in *.
    exists ss. split; [done|]. intros s Hs.
    destruct (Hss s Hs) as ([id pool] & Hin & Hidle). exists id, pool. split; [|done].
    apply elem_of_map_to_list.
    by rewrite <- (range_order_perm _ (map_to_list (cp_pools p))).
Qed.

(** X16: [GetSession] for a device without sub-pool creates one with the
    pool's current limits and keeps it whether or not a session could be
    opened: [Stats] then has an entry for the device, with one active
    session after a success and none after a failure, and no idle one. *)
Theorem GetSession_creates_sub_pool
    (p : ConnectionPool) (id : MinerID) (device : Device) (σ : Sys) :
  cp_pools p !! id = None →
  let r := (GetSession p id device σ).1.1 in
  let p' := (GetSession p id device σ).1.2 in
  Stats p' !! id
  = Some {| ActiveConnections := match r with Ok _ => 1 | Fail _ => 0 end;
            IdleConnections := 0;
            MaxOpen := cp_maxOpen p;
            MaxIdle := cp_maxIdle p |} ∧
  (∃ pool, cp_pools p' !! id = Some pool ∧ same_config (new_DevicePool p device) pool).
Proof.
  intros Hnone r p'. subst r p'. rewrite GetSession_eq. cbv zeta. cbn [fst snd].
  rewrite Hnone, Stats_lookup. cbn [cp_pools with_pools]. rewrite lookup_insert_eq.
  set (σ0 := {| world := world σ; log := log σ ++ [EvGetSession id] |}).
  split; [|eexists; split; [reflexivity | apply getSession_same_config]].
  cbn [fmap option_fmap option_map]. f_equal.
  destruct (getSession_cases (new_DevicePool p device) σ0)
    as [(l & x & Hl & _)|[(_ & _ & ->)|(_ & _ & s & err & σ1 & _ & ->)]].
  - cbn [new_DevicePool dp_idle] in Hl. by destruct l.
  - unfold pool_stats.
    cbn [fst snd new_DevicePool dp_active dp_idle dp_maxOpen dp_maxIdle length].
    by rewrite size_empty.
  - destruct err; unfold pool_stats;
      cbn [fst snd new_DevicePool with_sessions dp_active dp_idle dp_maxOpen dp_maxIdle length].
    + by rewrite size_empty.
    + by rewrite union_empty_r_L, size_singleton.
Qed.

Lemma close_count_app (s : Session) (l1 l2 : list Event) :
  close_count s (l1 ++ l2) = (close_count s l1 + close_count s l2)%nat.
Proof. unfold close_count. by rewrite List.filter_app, length_app. Qed.

Lemma close_count_elem (s : Session) (l : list Event) :
  EvClose s ∈ l → (1 ≤ close_count s l)%nat.
Proof.
  intros (l1 & l2 & ->)%list_elem_of_split.
  rewrite close_count_app. unfold close_count at 2. simpl.
  rewrite bool_decide_eq_true_2 by done. simpl. lia.
Qed.

(** X17: a session that is active when the pool is closed is closed by
    [Close], and closed a second time when its holder hands it back
    before the device's sub-pool has been created anew. *)
Theorem session_closed_twice_across_Close
    (p : ConnectionPool) (id : MinerID) (pool : DevicePool) (s : Session) (σ : Sys) :
  cp_pools p !! id = Some pool →
  s ∈ dp_active pool →
  (ReturnSession (Close p σ).1 id s (Close p σ).2).1 = (Close p σ).1 ∧
  ∃ calls,
    log (ReturnSession (Close p σ).1 id s (Close p σ).2).2 = log σ ++ calls ∧
    (2 ≤ close_count s calls)%nat.
Proof.
  intros Hpool Hs.
  assert (Hclose : Close p σ
                   = (with_pools p ∅,
                      (Close_loop (range_order _ (map_to_list (cp_pools p))) σ).2)).
  { unfold Close, bind. by destruct (Close_loop _ σ). }
  rewrite Hclose. simpl. rewrite ReturnSession_eq. simpl. rewrite lookup_empty. simpl.
  split; [done|].
  rewrite call_close_log. simpl. rewrite Close_loop_log.
  eexists. rewrite <- !app_assoc. split; [reflexivity|].
  rewrite !close_count_app.
  assert (1 ≤ close_count s
                (concat (map (λ entry, closeAll_calls entry.2)
                             (range_order _ (map_to_list (cp_pools p))))))%nat.
  { apply close_count_elem, list_elem_of_In, in_concat.
    exists (closeAll_calls pool).
    split; [|by apply list_elem_of_In, elem_of_closeAll_calls; right].
    apply (in_map (λ entry, closeAll_calls entry.2) _ (id, pool)), list_elem_of_In.
    rewrite (range_order_perm _ (map_to_list (cp_pools p))).
    by apply elem_of_map_to_list. }
  assert (close_count s [EvClose s] = 1%nat)
    by (unfold close_count; simpl; by rewrite bool_decide_eq_true_2).
  lia.
Qed.

(** X18: nothing checks that a session is handed back only once: when the
    idle list has room for two more, a session returned twice is queued
    twice, and the next two calls of [GetSession] both yield it, with no
    return in between. *)
Theorem double_return_hands_out_twice
    (p : ConnectionPool) (id : MinerID) (pool : DevicePool) (s : Session)
    (device : Device) (σa σb σc σd : Sys) :
  cp_pools p !! id = Some pool →
  Z.of_nat (length (dp_idle pool)) + 2 ≤ dp_maxIdle pool →
  let p2 := (ReturnSession (ReturnSession p id s σa).1 id s σb).1 in
  (GetSession p2 id device σc).1.1 = Ok s ∧
  (GetSession (GetSession p2 id device σc).1.2 id device σd).1.1 = Ok s.
Proof.
  intros Hpool Hroom p2. subst p2.
  rewrite (ReturnSession_eq p). simpl. rewrite Hpool.
  rewrite returnSession_room by lia. simpl.
  rewrite ReturnSession_eq. simpl. rewrite lookup_insert_eq.
  rewrite returnSession_room by (simpl; rewrite length_app; simpl; lia). simpl.
  rewrite insert_insert_eq.
  rewrite GetSession_eq. simpl. rewrite lookup_insert_eq.
  erewrite getSession_reuse by reflexivity. simpl. split; [done|].
  rewrite insert_insert_eq.
  rewrite GetSession_eq. simpl. rewrite lookup_insert_eq.
  erewrite getSession_reuse by reflexivity. done.
Qed.

(** X19: on a pool that has no sub-pool for the device yet and allows at least
    one idle session: after a session was obtained, handed back and
    obtained again, [Stats] reports one active and no idle session for
    the device, under the limits the pool had when the first call came. *)
Theorem Stats_after_get_return_get
    (p p1 : ConnectionPool) (id : MinerID) (device device' : Device)
    (s : Session) (σ σ1 σa σc : Sys) :
  cp_pools p !! id = None →
  1 ≤ cp_maxIdle p →
  GetSession p id device σ = ((Ok s, p1), σ1) →
  Stats (GetSession (ReturnSession p1 id s σa).1 id device' σc).1.2 !! id
  = Some {| ActiveConnections := 1; IdleConnections := 0;
            MaxOpen := cp_maxOpen p; MaxIdle := cp_maxIdle p |}.
Proof.
  intros Hnone Hmax Hget. rewrite GetSession_eq in Hget. cbv zeta in Hget.
  rewrite Hnone in Hget. injection Hget as Hr <- _.
  set (σ0 := {| world := world σ; log := log σ ++ [EvGetSession id] |}) in *.
  destruct (getSession_cases (new_DevicePool p device) σ0)
    as [(l & x & Hl & _)|[(_ & _ & Hg)|(_ & _ & s' & err & σ2 & _ & Hg)]].
  { cbn [new_DevicePool dp_idle] in Hl. by destruct l. }
  { by rewrite Hg in Hr. }
  rewrite Hg in Hr |- *. destruct err as [e|]; [done|].
  cbn [fst snd] in Hr |- *. injection Hr as ->.
  rewrite ReturnSession_eq. cbv zeta. cbn [cp_pools with_pools]. rewrite lookup_insert_eq.
  rewrite returnSession_room
    by (cbn [with_sessions new_DevicePool dp_idle dp_maxIdle length]; lia).
  cbn [fst snd cp_pools with_pools]. rewrite insert_insert_eq.
  rewrite GetSession_eq. cbv zeta. cbn [cp_pools with_pools]. rewrite lookup_insert_eq.
  erewrite getSession_reuse by (cbn [with_sessions dp_idle]; reflexivity).
  cbn [fst snd]. rewrite Stats_lookup. cbn [cp_pools with_pools].
  rewrite insert_insert_eq, lookup_insert_eq.
  cbn [fmap option_fmap option_map]. f_equal. unfold pool_stats.
  cbn [with_sessions new_DevicePool dp_active dp_idle dp_maxOpen dp_maxIdle length].
  replace ({[s]} ∪ ({[s]} ∪ ∅) ∖ {[s]} : gset Session) with ({[s]} : gset Session)
    by set_solver.
  by rewrite size_singleton.
Qed.

End PoolMore.

(** ** Concrete runs of the further properties *)

Lemma Registry_Detect_probes_prefix_witness :
  Registry_Detect NewRegistry sim_endpoint one_open = (Fail NewDriverNotFoundError, one_open).
Proof.
  apply (proj2 (Registry_Detect_probes_prefix NewRegistry sim_endpoint one_open)).
  reflexivity.
Defined.

Lemma built_table_consistent_witness :
  dev_ID (sim_device "x") = "x" ∧
  dev_DriverName (sim_device "x") = driver_name (dev_Driver (sim_device "x")).
Proof.
  apply (built_table_consistent
           (AddOrDetect sim_manager "x" sim_endpoint None one_open).1.2 "x").
  - apply built_AddOrDetect, built_new.
  - vm_compute. reflexivity.
Defined.

Lemma Manager_List_ids_unique_witness :
  NoDup (map dev_ID
           (Manager_List (AddOrDetect sim_manager "x" sim_endpoint None one_open).1.2)) ∧
  NoDup (map info_ID
           (DeviceInfos (AddOrDetect sim_manager "x" sim_endpoint None one_open).1.2)).
Proof.
  apply Manager_List_ids_unique. apply built_AddOrDetect, built_new.
Defined.

Lemma WithSession_opens_with_captured_device_witness :
  m_dev moved_manager !! "x"
  = Some {| dev_ID := "x"; dev_Endpoint := moved_endpoint;
            dev_Driver := 1%nat; dev_DriverName := "cgminer" |} ∧
  ∃ calls,
    log (WithSession moved_manager "x" failing_fn two_opens).2
    = log two_opens ++ EvGetSession "x" :: EvOpen 2%nat sim_endpoint :: calls.
Proof.
  split; [vm_compute; reflexivity|].
  apply (WithSession_opens_with_captured_device moved_manager "x" failing_fn two_opens
           {| dev_ID := "x"; dev_Endpoint := moved_endpoint;
              dev_Driver := 1%nat; dev_DriverName := "cgminer" |} moved_sub_pool).
  - vm_compute. reflexivity.
  - vm_compute. reflexivity.
  - reflexivity.
  - vm_compute. reflexivity.
Defined.

Lemma idle_count_never_exceeds_maxIdle_witness :
  Stats returned_twice_pool !! "x"
  = Some {| ActiveConnections := 0; IdleConnections := 1; MaxOpen := 1; MaxIdle := 1 |} ∧
  1 ≤ 1.
Proof.
  split; [vm_compute; reflexivity|].
  apply (idle_count_never_exceeds_maxIdle returned_twice_pool "x"
           {| ActiveConnections := 0; IdleConnections := 1; MaxOpen := 1; MaxIdle := 1 |}).
  - unfold returned_twice_pool. do 4 (apply reach_step; [|exact I]). apply reach_new.
  - vm_compute. reflexivity.
  - vm_compute. discriminate.
Defined.

Lemma live_sessions_never_exceed_maxOpen_witness :
  ∃ pool,
    cp_pools returned_once_pool !! "x" = Some pool ∧
    IdleConnections (pool_stats pool) + ActiveConnections (pool_stats pool) ≤ dp_maxOpen pool ∧
    NoDup (dp_idle pool).
Proof.
  eexists. split; [vm_compute; reflexivity|].
  apply (live_sessions_never_exceed_maxOpen returned_once_pool "x").
  - unfold returned_once_pool. apply reach_step.
    + apply reach_step; [apply reach_new | exact I].
    + vm_compute. reflexivity.
  - vm_compute. reflexivity.
Defined.

Lemma pool_calls_touch_one_device_witness :
  cp_pools (GetSession (m_pool busy_manager) "y" (sim_device "y") one_open).1.2 !! "x"
  = Some busy_sub_pool ∧
  cp_pools (ReturnSession (m_pool busy_manager) "y" 2%nat one_open).1 !! "x"
  = Some busy_sub_pool.
Proof.
  destruct (pool_calls_touch_one_device (m_pool busy_manager) "y" "x"
              (sim_device "y") 2%nat one_open) as (Hget & Hreturn & _).
  - discriminate.
  - split; (etrans; [eassumption | vm_compute; reflexivity]).
Defined.

Lemma sub_pool_keeps_device_and_limits_witness :
  ∃ pool',
    cp_pools (apply_op (OpGetSession "x" (sim_device "y"))
                (SetLimits (m_pool busy_manager) 1 1 Minute) one_open).1 !! "x" = Some pool' ∧
    same_config busy_sub_pool pool'.
Proof.
  eexists. split; [vm_compute; reflexivity|].
  apply (sub_pool_keeps_device_and_limits (OpGetSession "x" (sim_device "y"))
           (SetLimits (m_pool busy_manager) 1 1 Minute) one_open "x").
  - vm_compute. reflexivity.
  - vm_compute. reflexivity.
Defined.

Lemma GetSession_creates_sub_pool_witness :
  (GetSession NewConnectionPool "x" (sim_device "x") (sim_sys 0 [])).1.1
  = Fail connection_refused ∧
  Stats (GetSession NewConnectionPool "x" (sim_device "x") (sim_sys 0 [])).1.2 !! "x"
  = Some {| ActiveConnections := 0; IdleConnections := 0; MaxOpen := 10; MaxIdle := 5 |}.
Proof.
  split; [vm_compute; reflexivity|].
  destruct (GetSession_creates_sub_pool NewConnectionPool "x" (sim_device "x") (sim_sys 0 []))
    as [Hstats _]; [reflexivity|].
  etrans; [exact Hstats | vm_compute; reflexivity].
Defined.

Lemma session_closed_twice_across_Close_witness :
  ∃ calls,
    log (ReturnSession (Close (m_pool busy_manager) one_open).1 "x" 2%nat
                       (Close (m_pool busy_manager) one_open).2).2
    = log one_open ++ calls ∧
    (2 ≤ close_count 2%nat calls)%nat.
Proof.
  apply (session_closed_twice_across_Close (m_pool busy_manager) "x" busy_sub_pool 2%nat
           one_open).
  - vm_compute. reflexivity.
  - vm_compute. reflexivity.
Defined.

Lemma double_return_hands_out_twice_witness :
  (GetSession
     (ReturnSession (ReturnSession (m_pool busy_manager) "x" 2%nat one_open).1
                    "x" 2%nat one_open).1
     "x" (sim_device "x") one_open).1.1 = Ok 2%nat ∧
  (GetSession
     (GetSession
        (ReturnSession (ReturnSession (m_pool busy_manager) "x" 2%nat one_open).1
                       "x" 2%nat one_open).1
        "x" (sim_device "x") one_open).1.2
     "x" (sim_device "x") one_open).1.1 = Ok 2%nat.
Proof.
  apply (double_return_hands_out_twice (m_pool busy_manager) "x" busy_sub_pool 2%nat
           (sim_device "x") one_open one_open one_open one_open).
  - vm_compute. reflexivity.
  - vm_compute. discriminate.
Defined.

Lemma Stats_after_get_return_get_witness :
  ∃ p1 σ1,
    GetSession NewConnectionPool "x" (sim_device "x") one_open = ((Ok 1%nat, p1), σ1) ∧
    Stats (GetSession (ReturnSession p1 "x" 1%nat σ1).1 "x" (sim_device "x") σ1).1.2 !! "x"
    = Some {| ActiveConnections := 1; IdleConnections := 0; MaxOpen := 10; MaxIdle := 5 |}.
Proof.
  assert (Hget : ∃ p1 σ1,
            GetSession NewConnectionPool "x" (sim_device "x") one_open = ((Ok 1%nat, p1), σ1)).
  { eexists _, _. vm_compute. reflexivity. }
  destruct Hget as (p1 & σ1 & Hget). exists p1, σ1. split; [exact Hget|].
  apply (Stats_after_get_return_get NewConnectionPool p1 "x" (sim_device "x")
           (sim_device "x") 1%nat one_open σ1 σ1 σ1).
  - reflexivity.
  - vm_compute. discriminate.
  - exact Hget.
Defined.

Lemma WithSession_opens_with_table_record_witness :
  ∃ calls,
    log (WithSession (Manager_Close moved_manager one_open).1.2 "x" failing_fn two_opens).2
    = log two_opens ++ EvGetSession "x" :: EvOpen 1%nat moved_endpoint :: calls.
Proof.
  apply (proj2 (WithSession_opens_with_table_record moved_manager "x" failing_fn two_opens
                  {| dev_ID := "x"; dev_Endpoint := moved_endpoint;
                     dev_Driver := 1%nat; dev_DriverName := "cgminer" |}
                  ltac:(vm_compute; reflexivity) ltac:(vm_compute; reflexivity))).
Defined.
